(** * Snektris: the piece / grid core of [main.py]

    A shallow embedding of the falling-block game: [SingleBlock],
    [Tetromino] with its seven shape classes, [Grid] and the loop of
    [main], followed by the properties of the design document that it
    satisfies (and, where it does not, what it does instead).

    Python integers are unbounded, so coordinates are [Z].  The set
    [Grid.positions] is a [gset (Z * Z)].  A Python exception is a value of
    [Exn] carried by the [result] monad. *)

From Stdlib Require Import ZArith Lia.
From stdpp Require Import base gmap list.

Local Open Scope Z_scope.

(** ** Exceptions *)

Inductive Exn := AttributeError | ValueError | IndexError.

Inductive result (A : Type) : Type :=
| Ok (a : A)
| Raise (e : Exn).
Arguments Ok {A} a.
Arguments Raise {A} e.

#[global] Instance result_ret : MRet result := λ A a, Ok a.

#[global] Instance result_bind : MBind result := λ A B k r,
  match r with
  | Ok a => k a
  | Raise e => Raise e
  end.

(** ** Constants and colours *)

Definition START_POSITION : Z * Z := (0, 4).
Definition GRID_HEIGHT : Z := 20.
Definition GRID_WIDTH : Z := 10.

Inductive Color :=
| LINE_COLOR | BACKGROUND | RED | GREEN | BLUE | CYAN | PURPLE | YELLOW | ORANGE.


(** ** Built-ins used by the source *)

Definition any {A} (p : A → bool) (l : list A) : bool := existsb p l.

(** [min] and [max] of a generator raise [ValueError] on an empty one. *)
Definition py_min (l : list Z) : result Z :=
  match l with
  | [] => Raise ValueError
  | x :: xs => Ok (foldl Z.min x xs)
  end.

Definition py_max (l : list Z) : result Z :=
  match l with
  | [] => Raise ValueError
  | x :: xs => Ok (foldl Z.max x xs)
  end.

(** ** SingleBlock *)

Module SingleBlock.

Record t := mk { i : Z; j : Z; color : Color }.

Definition coords (b : t) : Z * Z := (i b, j b).

(** The [coords] setter. *)
Definition set_coords (b : t) (c : Z * Z) : t :=
  {| i := c.1; j := c.2; color := color b |}.

Definition step_down (b : t) : t := mk (i b + 1) (j b) (color b).
Definition step_left (b : t) : t := mk (i b) (j b - 1) (color b).
Definition step_right (b : t) : t := mk (i b) (j b + 1) (color b).

End SingleBlock.

(** ** The seven shape classes and their class attributes *)

Inductive TetrominoClass :=
| LShaped | JShaped | SShaped | TShaped | ZShaped | IShaped | Square.

Definition class_color (c : TetrominoClass) : Color :=
  match c with
  | LShaped => BLUE
  | JShaped => ORANGE
  | SShaped => GREEN
  | TShaped => PURPLE
  | ZShaped => RED
  | IShaped => CYAN
  | Square => YELLOW
  end.

Definition class_initial_coords (c : TetrominoClass) : list (Z * Z) :=
  match c with
  | LShaped => [(0, 0); (1, 0); (2, 0); (2, 1)]
  | JShaped => [(0, 1); (1, 1); (2, 1); (2, 0)]
  | SShaped => [(0, 0); (1, 0); (1, 1); (2, 1)]
  | TShaped => [(0, 1); (1, 0); (1, 1); (2, 1)]
  | ZShaped => [(0, 1); (1, 1); (1, 0); (2, 0)]
  | IShaped => [(0, 0); (1, 0); (2, 0); (3, 0)]
  | Square => [(0, 0); (1, 0); (0, 1); (1, 1)]
  end.

(** [center] is only annotated in the base class; a class that does not
    assign it has no such attribute. *)
Definition class_center (c : TetrominoClass) : option (Z * Z) :=
  match c with
  | LShaped => Some (1, 0)
  | JShaped => Some (1, 1)
  | SShaped => Some (1, 0)
  | TShaped => Some (1, 1)
  | ZShaped => Some (1, 1)
  | IShaped => Some (1, 0)
  | Square => None
  end.

(** ** Tetromino

    The third argument of the constructor is a reference to the grid's
    [positions] set; it is stored as [self.other_positions] and read through
    at every step, so a step sees the cells locked since construction.  The
    steps below take the current content of that set as their first
    argument, and the constructor, which only stores the reference, does not
    take it. *)

Module Tetromino.

Record t := mk {
  cls : TetrominoClass;
  i : Z;
  j : Z;
  initial_coords : list (Z * Z);
  blocks : list SingleBlock.t;
  done : bool
}.

Definition set_blocks (bs : list SingleBlock.t) (s : t) : t :=
  mk (cls s) (i s) (j s) (initial_coords s) bs (done s).

Definition set_done (d : bool) (s : t) : t :=
  mk (cls s) (i s) (j s) (initial_coords s) (blocks s) d.

(** [_center_coords]: the instance attribute shadows the class tuple. *)
Definition _center_coords (c : TetrominoClass) : result (list (Z * Z)) :=
  match class_center c with
  | None => Raise AttributeError
  | Some (x, y) =>
      Ok (map (λ p : Z * Z, (p.1 - x, p.2 - y)) (class_initial_coords c))
  end.

Definition __init__ (c : TetrominoClass) (i0 j0 : Z) : result t :=
  ics ← _center_coords c;
  Ok {| cls := c; i := i0; j := j0;
        initial_coords := ics;
        blocks := map (λ p : Z * Z,
                         SingleBlock.mk (i0 + p.1) (j0 + p.2) (class_color c))
                      ics;
        done := false |}.

Definition step_down (other_positions : gset (Z * Z)) (s : t) : t :=
  let new_blocks := map SingleBlock.step_down (blocks s) in
  if any (λ b, bool_decide (SingleBlock.i b >= GRID_HEIGHT)) new_blocks
  then set_done true s
  else if any (λ b, bool_decide (SingleBlock.coords b ∈ other_positions))
              new_blocks
  then set_done true s
  else mk (cls s) (i s + 1) (j s) (initial_coords s) new_blocks (done s).

Definition step_left (other_positions : gset (Z * Z)) (s : t) : t :=
  let new_blocks := map SingleBlock.step_left (blocks s) in
  if any (λ b, bool_decide (SingleBlock.j b < 0)) new_blocks
  then s
  else if any (λ b, bool_decide (SingleBlock.coords b ∈ other_positions))
              new_blocks
  then s
  else mk (cls s) (i s) (j s - 1) (initial_coords s) new_blocks (done s).

Definition step_right (other_positions : gset (Z * Z)) (s : t) : t :=
  let new_blocks := map SingleBlock.step_right (blocks s) in
  if any (λ b, bool_decide (SingleBlock.j b > GRID_WIDTH - 1)) new_blocks
  then s
  else if any (λ b, bool_decide (SingleBlock.coords b ∈ other_positions))
              new_blocks
  then s
  else mk (cls s) (i s) (j s + 1) (initial_coords s) new_blocks (done s).

Definition shift_j (d : Z) (b : SingleBlock.t) : SingleBlock.t :=
  SingleBlock.mk (SingleBlock.i b) (SingleBlock.j b - d) (SingleBlock.color b).

Definition shift_i (d : Z) (b : SingleBlock.t) : SingleBlock.t :=
  SingleBlock.mk (SingleBlock.i b - d) (SingleBlock.j b) (SingleBlock.color b).

Definition _check_boundaries (s : t) : result t :=
  min_j ← py_min (map SingleBlock.j (blocks s));
  if bool_decide (min_j < 0)
  then Ok (set_blocks (map (shift_j min_j) (blocks s)) s)
  else
    max_j ← py_max (map SingleBlock.j (blocks s));
    if bool_decide (max_j > GRID_WIDTH - 1)
    then Ok (set_blocks (map (shift_j (1 + max_j - GRID_WIDTH)) (blocks s)) s)
    else
      max_i ← py_max (map SingleBlock.i (blocks s));
      if bool_decide (max_i > GRID_HEIGHT - 1)
      then Ok (set_blocks
                 (map (shift_i (1 + max_i - GRID_HEIGHT)) (blocks s)) s)
      else Ok s.

Definition turn_clockwise (s : t) (b : SingleBlock.t) : SingleBlock.t :=
  let ii := SingleBlock.i b - i s in
  let jj := SingleBlock.j b - j s in
  SingleBlock.set_coords b (i s + jj, j s - ii).

Definition turn_anticlockwise (s : t) (b : SingleBlock.t) : SingleBlock.t :=
  let ii := SingleBlock.i b - i s in
  let jj := SingleBlock.j b - j s in
  SingleBlock.set_coords b (i s - jj, j s + ii).

Definition rotate_clockwise (s : t) : result t :=
  _check_boundaries (set_blocks (map (turn_clockwise s) (blocks s)) s).

Definition rotate_anticlockwise (s : t) : result t :=
  _check_boundaries (set_blocks (map (turn_anticlockwise s) (blocks s)) s).

End Tetromino.

(** ** What the drawing code uses

    [pygame.Rect(left, top, width, height)], [range] and
    [itertools.product].  A call of [pygame.draw.rect] is recorded as the
    pair of the colour value and the rectangle. *)




(** ** Grid

    The attribute [active_tetromino] is a second name for the piece held by
    [main] and is read only by the drawing code; the piece is kept once, in
    the loop state below. *)

Module Grid.

Record t := mk {
  height : Z;
  width : Z;
  grid_height : Z;
  grid_width : Z;
  pixel_width : Z;
  pixel_height : Z;
  blocks : list SingleBlock.t;
  positions : gset (Z * Z)
}.

Definition __init__ (width0 height0 : Z) : t :=
  {| height := height0; width := width0;
     grid_height := GRID_HEIGHT; grid_width := GRID_WIDTH;
     pixel_width := width0 `div` GRID_WIDTH;
     pixel_height := height0 `div` GRID_HEIGHT;
     blocks := [];
     positions := ∅ |}.

Definition add (c : Z * Z) (s : gset (Z * Z)) : gset (Z * Z) := {[c]} ∪ s.

Definition update_blocks (new_blocks : list SingleBlock.t) (g : t) : t :=
  mk (height g) (width g) (grid_height g) (grid_width g)
     (pixel_width g) (pixel_height g)
     (blocks g ++ new_blocks)
     (foldl (λ s b, add (SingleBlock.coords b) s) (positions g) new_blocks).



End Grid.

(** ** The loop of [main]

    One [Input] is what the outside world supplies to one pass: the number
    drawn by [random.choice] and the events returned by [pygame.event.get].
    Drawing, [sleep] and the unused [get_pressed] do not touch the state. *)

Inductive Key := K_x | K_y | K_LEFT | K_RIGHT | K_DOWN | K_SPACE.

Inductive Event := QUIT | KEYDOWN (key : Key) | KEYUP (key : Key).

Record Input := mkInput { rnd : nat; events : list Event }.

Definition tetromino_classes : list TetrominoClass :=
  [SShaped; TShaped; ZShaped; LShaped; IShaped; JShaped].

Definition random_choice {A} (r : nat) (l : list A) : option A :=
  l !! (r `mod` length l)%nat.

Record Loop := mkLoop { grid : Grid.t; counter : Z; game_over : bool }.

(** Control points: the head of the outer [while], the head of the inner
    [while True] with the live piece, [main] returned, or an exception
    escaped. *)
Inductive State :=
| AtSpawn (l : Loop)
| Falling (l : Loop) (active_tetromino : Tetromino.t)
| Returned (l : Loop)
| Crashed (e : Exn).

Definition on_keydown (positions : gset (Z * Z)) (key : Key)
    (p : Tetromino.t) : result Tetromino.t :=
  p1 ← match key with
       | K_x => Tetromino.rotate_clockwise p
       | K_y => Tetromino.rotate_anticlockwise p
       | _ => Ok p
       end;
  let p2 := match key with K_LEFT => Tetromino.step_left positions p1 | _ => p1 end in
  let p3 := match key with K_RIGHT => Tetromino.step_right positions p2 | _ => p2 end in
  let p4 := match key with K_DOWN => Tetromino.step_down positions p3 | _ => p3 end in
  Ok p4.

(** The [for event in pygame.event.get()] loop; [None] is the [return] taken
    on [QUIT]. *)
Fixpoint on_events (positions : gset (Z * Z)) (evs : list Event)
    (p : Tetromino.t) : result (option Tetromino.t) :=
  match evs with
  | [] => Ok (Some p)
  | QUIT :: _ => Ok None
  | KEYDOWN key :: evs' =>
      p' ← on_keydown positions key p;
      on_events positions evs' p'
  | KEYUP _ :: evs' => on_events positions evs' p
  end.

(** The end of a pass that finds the piece done: merge it and test the
    start position. *)
Definition settle (l : Loop) (p : Tetromino.t) : Loop :=
  let g := Grid.update_blocks (Tetromino.blocks p) (grid l) in
  mkLoop g (counter l)
         (if bool_decide (START_POSITION ∈ Grid.positions g) then true
          else game_over l).

(** One pass of the inner loop. *)
Definition frame (evs : list Event) (l : Loop) (p : Tetromino.t) : State :=
  match on_events (Grid.positions (grid l)) evs p with
  | Raise e => Crashed e
  | Ok None => Returned l
  | Ok (Some p1) =>
      let '(p2, c) :=
        if bool_decide (counter l = 30)
        then (Tetromino.step_down (Grid.positions (grid l)) p1, 0)
        else (p1, counter l) in
      let l' := mkLoop (grid l) (c + 1) (game_over l) in
      if Tetromino.done p2 then AtSpawn (settle l' p2) else Falling l' p2
  end.

(** The head of the outer loop: leave when the game is over, otherwise draw
    a class and construct the piece at the start position. *)
Definition spawn (r : nat) (l : Loop) : State :=
  if game_over l then Returned l
  else match random_choice r tetromino_classes with
       | None => Crashed IndexError
       | Some c =>
           match Tetromino.__init__ c START_POSITION.1 START_POSITION.2 with
           | Raise e => Crashed e
           | Ok p => Falling l p
           end
       end.

Definition step (s : State) (inp : Input) : State :=
  match s with
  | AtSpawn l => spawn (rnd inp) l
  | Falling l p => frame (events inp) l p
  | Returned l => Returned l
  | Crashed e => Crashed e
  end.

Definition initial : State :=
  AtSpawn (mkLoop (Grid.__init__ 300 600) 0 false).

Definition run (inputs : list Input) : State := foldl step initial inputs.

(** ** Concrete pieces and traces used in the examples *)

Definition keys (ks : list Key) : Input := mkInput 0 (map KEYDOWN ks).
Definition draw (n : nat) : Input := mkInput n [].

Definition cyan (r c : Z) : SingleBlock.t := SingleBlock.mk r c CYAN.

(** The I piece as [IShaped(0, 4, ...)] builds it. *)
Definition I_spawned : Tetromino.t :=
  Tetromino.mk IShaped 0 4 [(-1, 0); (0, 0); (1, 0); (2, 0)]
    [cyan (-1) 4; cyan 0 4; cyan 1 4; cyan 2 4] false.

(** The same piece after seventeen accepted steps down: it stands on the
    floor of the grid. *)
Definition I_on_floor : Tetromino.t :=
  Tetromino.mk IShaped 17 4 [(-1, 0); (0, 0); (1, 0); (2, 0)]
    [cyan 16 4; cyan 17 4; cyan 18 4; cyan 19 4] false.

(** ** Predicates used in the statements *)

Definition is_min (m : Z) (l : list Z) : Prop := m ∈ l ∧ ∀ y, y ∈ l → m ≤ y.
Definition is_max (m : Z) (l : list Z) : Prop := m ∈ l ∧ ∀ y, y ∈ l → y ≤ m.

Definition L_in_corner : Tetromino.t :=
  Tetromino.mk LShaped 18 0 [(-1, 0); (0, 0); (1, 0); (1, 1)]
    [SingleBlock.mk 18 1 BLUE; SingleBlock.mk 18 0 BLUE;
     SingleBlock.mk 18 (-1) BLUE; SingleBlock.mk 19 (-1) BLUE] false.

(** The piece of [I_on_floor] once its next step down has been refused. *)
Definition I_settled : Tetromino.t := Tetromino.step_down ∅ I_on_floor.

Definition cols_inside (bs : list SingleBlock.t) : Prop :=
  ∀ b, b ∈ bs → 0 ≤ SingleBlock.j b < GRID_WIDTH.

Definition rows_above_floor (bs : list SingleBlock.t) : Prop :=
  ∀ b, b ∈ bs → SingleBlock.i b < GRID_HEIGHT.

(** No two blocks of a piece are more than three cells apart on either
    axis. *)
Definition compact (bs : list SingleBlock.t) : Prop :=
  ∀ b1 b2, b1 ∈ bs → b2 ∈ bs →
    SingleBlock.i b1 - SingleBlock.i b2 ≤ 3 ∧
    SingleBlock.j b1 - SingleBlock.j b2 ≤ 3.

Definition piece_inv (p : Tetromino.t) : Prop :=
  length (Tetromino.blocks p) = 4%nat ∧
  Tetromino.cls p ∈ tetromino_classes ∧
  cols_inside (Tetromino.blocks p) ∧
  compact (Tetromino.blocks p).

Definition loop_inv (l : Loop) : Prop :=
  cols_inside (Grid.blocks (grid l)) ∧
  (game_over l = true ↔ START_POSITION ∈ Grid.positions (grid l)).

Definition state_inv (s : State) : Prop :=
  match s with
  | AtSpawn l => loop_inv l
  | Falling l p => loop_inv l ∧ game_over l = false ∧ piece_inv p
  | Returned l => loop_inv l
  | Crashed _ => False
  end.

Definition active_blocks (s : State) : list SingleBlock.t :=
  match s with
  | Falling _ p => Tetromino.blocks p
  | _ => []
  end.

Definition locked_blocks (s : State) : list SingleBlock.t :=
  match s with
  | AtSpawn l | Falling l _ | Returned l => Grid.blocks (grid l)
  | Crashed _ => []
  end.

Definition active_class (s : State) : option TetrominoClass :=
  match s with
  | Falling _ p => Some (Tetromino.cls p)
  | _ => None
  end.

Definition crashed (s : State) : bool :=
  match s with
  | Crashed _ => true
  | _ => false
  end.

Ltac each_block H :=
  repeat (apply elem_of_cons in H as [-> | H]);
  try (by apply elem_of_nil in H).

Definition loop_of (s : State) : option Loop :=
  match s with
  | AtSpawn l | Falling l _ | Returned l => Some l
  | Crashed _ => None
  end.

Definition in_grid (b : SingleBlock.t) : Prop :=
  0 ≤ SingleBlock.i b < GRID_HEIGHT ∧ 0 ≤ SingleBlock.j b < GRID_WIDTH.

(** An L piece taken to the lower left corner and turned twice. *)
Definition corner_trace : list Input :=
  [draw 3; keys (replicate 4 K_LEFT ++ replicate 18 K_DOWN ++ [K_x; K_x])].

Definition I_left_of_start : Tetromino.t :=
  Tetromino.mk IShaped 0 0 [(-1, 0); (0, 0); (1, 0); (2, 0)]
    [cyan (-1) 0; cyan 0 0; cyan 1 0; cyan 2 0] false.

(** Five I pieces dropped down the start column: the fifth comes to rest
    in rows 0 to 3 and covers the start position. *)
Definition tower_trace : list Input :=
  concat (replicate 5 [draw 4; keys (replicate 18 K_DOWN)]).

Definition tower_loop : Loop :=
  default (mkLoop (Grid.__init__ 300 600) 0 false) (loop_of (run tower_trace)).

(** The locked blocks and the occupied set agree: no cell holds two blocks,
    and the set is exactly the cells of the blocks. *)
Definition consistent (g : Grid.t) : Prop :=
  NoDup (map SingleBlock.coords (Grid.blocks g)) ∧
  ∀ c, c ∈ Grid.positions g ↔ c ∈ map SingleBlock.coords (Grid.blocks g).

Definition grid_of (s : State) : Grid.t :=
  default (Grid.__init__ 300 600) (grid <$> loop_of s).

(** One I piece dropped down the start column, then a second one dropped
    next to it and turned into it. *)
Definition first_drop : list Input := [draw 4; keys (replicate 18 K_DOWN)].
Definition overlap_trace : list Input :=
  first_drop ++
  [draw 4; keys (K_LEFT :: replicate 17 K_DOWN ++ [K_x; K_DOWN])].

(** ** Predicates and data of the further properties *)

(** Blocks on which the boundary correction has nothing to do. *)
Definition no_correction (bs : list SingleBlock.t) : Prop :=
  ∀ b, b ∈ bs → 0 ≤ SingleBlock.j b ≤ GRID_WIDTH - 1 ∧
                SingleBlock.i b ≤ GRID_HEIGHT - 1.

(** The blocks are within [d] cells of the reference coordinate, which is
    at least [d] cells from both walls and from the floor. *)
Definition clear_of_walls (d : Z) (s : Tetromino.t) : Prop :=
  Tetromino.blocks s ≠ [] ∧
  (∀ b, b ∈ Tetromino.blocks s →
        - d ≤ SingleBlock.i b - Tetromino.i s ≤ d ∧
        - d ≤ SingleBlock.j b - Tetromino.j s ≤ d) ∧
  d ≤ Tetromino.j s ≤ GRID_WIDTH - 1 - d ∧
  Tetromino.i s + d ≤ GRID_HEIGHT - 1.

(** Where the blocks are, seen from the reference coordinate. *)
Definition offsets (s : Tetromino.t) : list (Z * Z) :=
  map (λ b, (SingleBlock.i b - Tetromino.i s, SingleBlock.j b - Tetromino.j s))
      (Tetromino.blocks s).

Inductive Move := MoveDown | MoveLeft | MoveRight.

Definition do_move (pos : gset (Z * Z)) (s : Tetromino.t) (m : Move)
    : Tetromino.t :=
  match m with
  | MoveDown => Tetromino.step_down pos s
  | MoveLeft => Tetromino.step_left pos s
  | MoveRight => Tetromino.step_right pos s
  end.

(** The displacement a move attempts. *)
Definition delta (m : Move) : Z * Z :=
  match m with
  | MoveDown => (1, 0)
  | MoveLeft => (0, -1)
  | MoveRight => (0, 1)
  end.

Definition displaced (d : Z * Z) (b : SingleBlock.t) : SingleBlock.t :=
  SingleBlock.mk (SingleBlock.i b + d.1) (SingleBlock.j b + d.2)
                 (SingleBlock.color b).

(** No block lies on an occupied cell. *)
Definition free (pos : gset (Z * Z)) (bs : list SingleBlock.t) : Prop :=
  ∀ b, b ∈ bs → SingleBlock.coords b ∉ pos.

(** Events bound to nothing in [main]. *)
Definition bound (ev : Event) : bool :=
  match ev with
  | KEYUP _ | KEYDOWN K_SPACE => false
  | _ => true
  end.

Definition piece_inv2 (p : Tetromino.t) : Prop :=
  Tetromino.done p = false ∧
  ∀ b, b ∈ Tetromino.blocks p →
       SingleBlock.color b = class_color (Tetromino.cls p).

Definition loop_inv2 (l : Loop) : Prop :=
  0 ≤ counter l ≤ 30 ∧
  (∀ c, c ∈ Grid.positions (grid l) ↔
        c ∈ map SingleBlock.coords (Grid.blocks (grid l))) ∧
  ∃ k : nat, length (Grid.blocks (grid l)) = (4 * k)%nat.

Definition state_inv2 (s : State) : Prop :=
  match s with
  | AtSpawn l | Returned l => loop_inv2 l
  | Falling l p => loop_inv2 l ∧ piece_inv2 p
  | Crashed _ => True
  end.

(** The I piece in mid-air. *)
Definition I_in_the_middle : Tetromino.t :=
  Tetromino.mk IShaped 10 4 [(-1, 0); (0, 0); (1, 0); (2, 0)]
    [cyan 9 4; cyan 10 4; cyan 11 4; cyan 12 4] false.

(** * Properties *)

Section Builtins.

Context {A : Type}.

Lemma any_spec (p : A → bool) (l : list A) :
  any p l = true ↔ ∃ x, x ∈ l ∧ p x = true.
Proof.
  unfold any. rewrite existsb_exists.
  split; intros (x & Hx & Hp); exists x; split; auto;
    by apply list_elem_of_In.
Qed.

Lemma any_false (p : A → bool) (l : list A) :
  any p l = false ↔ ∀ x, x ∈ l → p x = false.
Proof.
  split.
  - intros Hany x Hx. destruct (p x) eqn:Hp; [|done].
    assert (any p l = true) by (apply any_spec; eauto). congruence.
  - intros Hall. destruct (any p l) eqn:Hany; [|done].
    apply (proj1 (any_spec _ _)) in Hany as (x & Hx & Hp).
    rewrite (Hall x Hx) in Hp. done.
Qed.

End Builtins.

(** ** Vertical and horizontal steps *)

Lemma step_down_spec (pos : gset (Z * Z)) (s : Tetromino.t) :
  let lowered :=
    map (λ b, SingleBlock.mk (SingleBlock.i b + 1) (SingleBlock.j b)
                             (SingleBlock.color b)) (Tetromino.blocks s) in
  let s' := Tetromino.step_down pos s in
  ((∃ b, b ∈ lowered ∧
         (SingleBlock.i b >= GRID_HEIGHT ∨ SingleBlock.coords b ∈ pos)) →
   Tetromino.done s' = true ∧ Tetromino.blocks s' = Tetromino.blocks s ∧
   Tetromino.i s' = Tetromino.i s ∧ Tetromino.j s' = Tetromino.j s)
  ∧
  ((∀ b, b ∈ lowered →
         SingleBlock.i b < GRID_HEIGHT ∧ SingleBlock.coords b ∉ pos) →
   Tetromino.blocks s' = lowered ∧ Tetromino.done s' = Tetromino.done s ∧
   Tetromino.i s' = Tetromino.i s + 1 ∧ Tetromino.j s' = Tetromino.j s).
Proof.
  intros lowered s'. subst s'. unfold Tetromino.step_down.
  change (map SingleBlock.step_down (Tetromino.blocks s)) with lowered.
  split.
  - intros (b & Hb & Hblocked).
    destruct (any _ lowered) eqn:Hfloor; [done|].
    destruct (any _ lowered) eqn:Hocc in |- *; [done|].
    exfalso. destruct Hblocked as [Hrow | Hcell].
    + pose proof (proj1 (any_false _ _) Hfloor b Hb) as Hb'.
      by apply bool_decide_eq_false in Hb'.
    + pose proof (proj1 (any_false _ _) Hocc b Hb) as Hb'.
      by apply bool_decide_eq_false in Hb'.
  - intros Hfree.
    destruct (any _ lowered) eqn:Hfloor.
    { apply (proj1 (any_spec _ _)) in Hfloor as (b & Hb & Hrow).
      apply bool_decide_eq_true in Hrow. destruct (Hfree b Hb). lia. }
    destruct (any _ lowered) eqn:Hocc in |- *.
    { apply (proj1 (any_spec _ _)) in Hocc as (b & Hb & Hcell).
      apply bool_decide_eq_true in Hcell. by destruct (Hfree b Hb). }
    done.
Qed.

(** C1. [step_down] lowers every block by one row.  When a lowered block
    leaves the grid through the floor or lands on an occupied cell, the
    piece is marked done and neither its blocks nor its reference coordinate
    change; otherwise the whole list of blocks is replaced by the lowered
    one (and the reference follows), the flag staying as it was. *)
Theorem step_down_rejects_or_commits (pos : gset (Z * Z)) (s : Tetromino.t) :
  let lowered :=
    map (λ b, SingleBlock.mk (SingleBlock.i b + 1) (SingleBlock.j b)
                             (SingleBlock.color b)) (Tetromino.blocks s) in
  let s' := Tetromino.step_down pos s in
  ((∃ b, b ∈ lowered ∧
         (SingleBlock.i b >= GRID_HEIGHT ∨ SingleBlock.coords b ∈ pos)) →
   Tetromino.done s' = true ∧ Tetromino.blocks s' = Tetromino.blocks s ∧
   Tetromino.i s' = Tetromino.i s ∧ Tetromino.j s' = Tetromino.j s)
  ∧
  ((∀ b, b ∈ lowered →
         SingleBlock.i b < GRID_HEIGHT ∧ SingleBlock.coords b ∉ pos) →
   Tetromino.blocks s' = lowered ∧ Tetromino.done s' = Tetromino.done s ∧
   Tetromino.i s' = Tetromino.i s + 1 ∧ Tetromino.j s' = Tetromino.j s).
Proof. apply step_down_spec. Qed.

Lemma step_down_rejects_or_commits_witness :
  Tetromino.done (Tetromino.step_down ∅ I_on_floor) = true ∧
  Tetromino.blocks (Tetromino.step_down ∅ I_spawned)
  = [cyan 0 4; cyan 1 4; cyan 2 4; cyan 3 4].
Proof.
  split.
  - apply (proj1 (step_down_rejects_or_commits ∅ I_on_floor)).
    exists (cyan 20 4). split; [|left; vm_compute; discriminate].
    simpl. set_solver.
  - apply (proj2 (step_down_rejects_or_commits ∅ I_spawned)).
    intros b Hb. split; [|set_solver].
    simpl in Hb. unfold GRID_HEIGHT.
    repeat (apply elem_of_cons in Hb as [-> | Hb]; [simpl; lia|]).
    by apply elem_of_nil in Hb.
Defined.

Lemma step_left_spec (pos : gset (Z * Z)) (s : Tetromino.t) :
  (∀ b, b ∈ Tetromino.blocks s → 0 ≤ SingleBlock.j b ≤ GRID_WIDTH - 1) →
  let moved :=
    map (λ b, SingleBlock.mk (SingleBlock.i b) (SingleBlock.j b - 1)
                             (SingleBlock.color b)) (Tetromino.blocks s) in
  ((∃ b, b ∈ moved ∧ (¬ (0 ≤ SingleBlock.j b ≤ GRID_WIDTH - 1) ∨
                       SingleBlock.coords b ∈ pos)) →
   Tetromino.step_left pos s = s)
  ∧
  ((∀ b, b ∈ moved → 0 ≤ SingleBlock.j b ≤ GRID_WIDTH - 1 ∧
                     SingleBlock.coords b ∉ pos) →
   Tetromino.step_left pos s
   = Tetromino.mk (Tetromino.cls s) (Tetromino.i s) (Tetromino.j s - 1)
       (Tetromino.initial_coords s) moved (Tetromino.done s)).
Proof.
  intros Hcols moved. unfold Tetromino.step_left.
  change (map SingleBlock.step_left (Tetromino.blocks s)) with moved.
  assert (Hup : ∀ b, b ∈ moved → SingleBlock.j b ≤ GRID_WIDTH - 1).
  { intros b Hb. apply list_elem_of_fmap in Hb as (b0 & -> & Hb0).
    specialize (Hcols b0 Hb0). simpl. lia. }
  split.
  - intros (b & Hb & Hblocked).
    destruct (any _ moved) eqn:Hwall; [done|].
    destruct (any _ moved) eqn:Hocc in |- *; [done|].
    exfalso. destruct Hblocked as [Hcol | Hcell].
    + pose proof (proj1 (any_false _ _) Hwall b Hb) as Hb'.
      apply bool_decide_eq_false in Hb'. specialize (Hup b Hb). lia.
    + pose proof (proj1 (any_false _ _) Hocc b Hb) as Hb'.
      by apply bool_decide_eq_false in Hb'.
  - intros Hfree.
    destruct (any _ moved) eqn:Hwall.
    { apply (proj1 (any_spec _ _)) in Hwall as (b & Hb & Hcol).
      apply bool_decide_eq_true in Hcol. destruct (Hfree b Hb). lia. }
    destruct (any _ moved) eqn:Hocc in |- *.
    { apply (proj1 (any_spec _ _)) in Hocc as (b & Hb & Hcell).
      apply bool_decide_eq_true in Hcell. by destruct (Hfree b Hb). }
    done.
Qed.

Lemma step_right_spec (pos : gset (Z * Z)) (s : Tetromino.t) :
  (∀ b, b ∈ Tetromino.blocks s → 0 ≤ SingleBlock.j b ≤ GRID_WIDTH - 1) →
  let moved :=
    map (λ b, SingleBlock.mk (SingleBlock.i b) (SingleBlock.j b + 1)
                             (SingleBlock.color b)) (Tetromino.blocks s) in
  ((∃ b, b ∈ moved ∧ (¬ (0 ≤ SingleBlock.j b ≤ GRID_WIDTH - 1) ∨
                       SingleBlock.coords b ∈ pos)) →
   Tetromino.step_right pos s = s)
  ∧
  ((∀ b, b ∈ moved → 0 ≤ SingleBlock.j b ≤ GRID_WIDTH - 1 ∧
                     SingleBlock.coords b ∉ pos) →
   Tetromino.step_right pos s
   = Tetromino.mk (Tetromino.cls s) (Tetromino.i s) (Tetromino.j s + 1)
       (Tetromino.initial_coords s) moved (Tetromino.done s)).
Proof.
  intros Hcols moved. unfold Tetromino.step_right.
  change (map SingleBlock.step_right (Tetromino.blocks s)) with moved.
  assert (Hlow : ∀ b, b ∈ moved → 0 ≤ SingleBlock.j b).
  { intros b Hb. apply list_elem_of_fmap in Hb as (b0 & -> & Hb0).
    specialize (Hcols b0 Hb0). simpl. lia. }
  split.
  - intros (b & Hb & Hblocked).
    destruct (any _ moved) eqn:Hwall; [done|].
    destruct (any _ moved) eqn:Hocc in |- *; [done|].
    exfalso. destruct Hblocked as [Hcol | Hcell].
    + pose proof (proj1 (any_false _ _) Hwall b Hb) as Hb'.
      apply bool_decide_eq_false in Hb'. specialize (Hlow b Hb). lia.
    + pose proof (proj1 (any_false _ _) Hocc b Hb) as Hb'.
      by apply bool_decide_eq_false in Hb'.
  - intros Hfree.
    destruct (any _ moved) eqn:Hwall.
    { apply (proj1 (any_spec _ _)) in Hwall as (b & Hb & Hcol).
      apply bool_decide_eq_true in Hcol. destruct (Hfree b Hb). lia. }
    destruct (any _ moved) eqn:Hocc in |- *.
    { apply (proj1 (any_spec _ _)) in Hocc as (b & Hb & Hcell).
      apply bool_decide_eq_true in Hcell. by destruct (Hfree b Hb). }
    done.
Qed.

(** ** Minimum and maximum of the block coordinates *)

Lemma foldl_min_is_min (xs : list Z) (x : Z) : is_min (foldl Z.min x xs) (x :: xs).
Proof.
  revert x. induction xs as [|y ys IH]; intros x; simpl.
  - split; [apply list_elem_of_here|].
    intros z Hz. apply list_elem_of_singleton in Hz. lia.
  - destruct (IH (Z.min x y)) as [Hin Hle]. split.
    + apply elem_of_cons in Hin as [Heq | Hin].
      * rewrite Heq. destruct (Z.min_spec x y) as [[_ ->] | [_ ->]];
          first [ apply list_elem_of_here
                | apply list_elem_of_further, list_elem_of_here ].
      * by do 2 apply list_elem_of_further.
    + intros z Hz.
      assert (Hm : foldl Z.min (Z.min x y) ys ≤ Z.min x y) by apply Hle, list_elem_of_here.
      apply elem_of_cons in Hz as [-> | Hz]; [lia|].
      apply elem_of_cons in Hz as [-> | Hz]; [lia|].
      by apply Hle, list_elem_of_further.
Qed.

Lemma foldl_max_is_max (xs : list Z) (x : Z) : is_max (foldl Z.max x xs) (x :: xs).
Proof.
  revert x. induction xs as [|y ys IH]; intros x; simpl.
  - split; [apply list_elem_of_here|].
    intros z Hz. apply list_elem_of_singleton in Hz. lia.
  - destruct (IH (Z.max x y)) as [Hin Hle]. split.
    + apply elem_of_cons in Hin as [Heq | Hin].
      * rewrite Heq. destruct (Z.max_spec x y) as [[_ ->] | [_ ->]];
          first [ apply list_elem_of_here
                | apply list_elem_of_further, list_elem_of_here ].
      * by do 2 apply list_elem_of_further.
    + intros z Hz.
      assert (Hm : Z.max x y ≤ foldl Z.max (Z.max x y) ys) by apply Hle, list_elem_of_here.
      apply elem_of_cons in Hz as [-> | Hz]; [lia|].
      apply elem_of_cons in Hz as [-> | Hz]; [lia|].
      by apply Hle, list_elem_of_further.
Qed.

Lemma is_min_unique (l : list Z) (m m' : Z) : is_min m l → is_min m' l → m = m'.
Proof. intros [Hin Hle] [Hin' Hle']. specialize (Hle _ Hin'). specialize (Hle' _ Hin). lia. Qed.

Lemma is_max_unique (l : list Z) (m m' : Z) : is_max m l → is_max m' l → m = m'.
Proof. intros [Hin Hle] [Hin' Hle']. specialize (Hle _ Hin'). specialize (Hle' _ Hin). lia. Qed.

Lemma py_min_ok (l : list Z) (m : Z) : is_min m l → py_min l = Ok m.
Proof.
  destruct l as [|x xs]; intros Hm.
  - destruct Hm as [Hin _]. by apply elem_of_nil in Hin.
  - simpl. f_equal. eapply is_min_unique; [apply foldl_min_is_min | done].
Qed.

Lemma py_max_ok (l : list Z) (m : Z) : is_max m l → py_max l = Ok m.
Proof.
  destruct l as [|x xs]; intros Hm.
  - destruct Hm as [Hin _]. by apply elem_of_nil in Hin.
  - simpl. f_equal. eapply is_max_unique; [apply foldl_max_is_max | done].
Qed.

Lemma py_min_total (l : list Z) : l ≠ [] → ∃ m, py_min l = Ok m ∧ is_min m l.
Proof.
  destruct l as [|x xs]; [done|]. intros _. eexists. split; [done|].
  apply foldl_min_is_min.
Qed.

Lemma py_max_total (l : list Z) : l ≠ [] → ∃ m, py_max l = Ok m ∧ is_max m l.
Proof.
  destruct l as [|x xs]; [done|]. intros _. eexists. split; [done|].
  apply foldl_max_is_max.
Qed.

(** ** Rotation and boundary correction *)

Lemma check_boundaries_keeps (s s' : Tetromino.t) :
  Tetromino._check_boundaries s = Ok s' →
  Tetromino.cls s' = Tetromino.cls s ∧ Tetromino.i s' = Tetromino.i s ∧
  Tetromino.j s' = Tetromino.j s ∧ Tetromino.done s' = Tetromino.done s ∧
  Tetromino.initial_coords s' = Tetromino.initial_coords s ∧
  length (Tetromino.blocks s') = length (Tetromino.blocks s).
Proof.
  unfold Tetromino._check_boundaries.
  destruct (py_min _) as [mn|]; simpl; [|done].
  case_bool_decide.
  { intros [= <-]. simpl. by rewrite length_map. }
  destruct (py_max (map SingleBlock.j _)) as [mx|]; simpl; [|done].
  case_bool_decide.
  { intros [= <-]. simpl. by rewrite length_map. }
  destruct (py_max (map SingleBlock.i _)) as [mxi|]; simpl; [|done].
  case_bool_decide; intros [= <-]; simpl; by rewrite ?length_map.
Qed.

Lemma check_boundaries_total (s : Tetromino.t) :
  Tetromino.blocks s ≠ [] → ∃ s', Tetromino._check_boundaries s = Ok s'.
Proof.
  intros Hne. unfold Tetromino._check_boundaries.
  destruct (Tetromino.blocks s) as [|b bs] eqn:Hbs; [done|]. simpl.
  repeat (case_bool_decide; eauto).
Qed.

Lemma check_boundaries_cases (s : Tetromino.t) (min_j max_j max_i : Z) :
  is_min min_j (map SingleBlock.j (Tetromino.blocks s)) →
  is_max max_j (map SingleBlock.j (Tetromino.blocks s)) →
  is_max max_i (map SingleBlock.i (Tetromino.blocks s)) →
  ∃ s', Tetromino._check_boundaries s = Ok s' ∧
    Tetromino.i s' = Tetromino.i s ∧ Tetromino.j s' = Tetromino.j s ∧
    Tetromino.done s' = Tetromino.done s ∧
    (min_j < 0 →
     Tetromino.blocks s'
     = map (λ b, SingleBlock.mk (SingleBlock.i b) (SingleBlock.j b + (0 - min_j))
                                (SingleBlock.color b)) (Tetromino.blocks s)) ∧
    (0 ≤ min_j → GRID_WIDTH - 1 < max_j →
     Tetromino.blocks s'
     = map (λ b, SingleBlock.mk (SingleBlock.i b)
                                (SingleBlock.j b - (max_j - (GRID_WIDTH - 1)))
                                (SingleBlock.color b)) (Tetromino.blocks s)) ∧
    (0 ≤ min_j → max_j ≤ GRID_WIDTH - 1 → GRID_HEIGHT - 1 < max_i →
     Tetromino.blocks s'
     = map (λ b, SingleBlock.mk (SingleBlock.i b - (max_i - (GRID_HEIGHT - 1)))
                                (SingleBlock.j b)
                                (SingleBlock.color b)) (Tetromino.blocks s)) ∧
    (0 ≤ min_j → max_j ≤ GRID_WIDTH - 1 → max_i ≤ GRID_HEIGHT - 1 →
     Tetromino.blocks s' = Tetromino.blocks s).
Proof.
  intros Hmin Hmaxj Hmaxi. unfold Tetromino._check_boundaries.
  rewrite (py_min_ok _ _ Hmin), (py_max_ok _ _ Hmaxj), (py_max_ok _ _ Hmaxi).
  simpl. case_bool_decide as Hlow; [|case_bool_decide as Hhigh;
                                      [|case_bool_decide as Hfloor]];
    eexists; (split; [reflexivity|]); simpl;
    repeat split; try done; try (intros; lia); intros;
    apply map_ext; intros b; unfold Tetromino.shift_j, Tetromino.shift_i;
    f_equal; lia.
Qed.

(** C3. Boundary correction moves the blocks along at most one axis, the
    first that applies of: a negative least column (all blocks go right by
    the deficit), a greatest column beyond [GRID_WIDTH - 1] (all go left by
    the excess), a greatest row beyond [GRID_HEIGHT - 1] (all go up by the
    excess); when none applies no block changes.  Nothing else of the piece
    is touched. *)
Theorem check_boundaries_one_axis (s : Tetromino.t) (min_j max_j max_i : Z) :
  is_min min_j (map SingleBlock.j (Tetromino.blocks s)) →
  is_max max_j (map SingleBlock.j (Tetromino.blocks s)) →
  is_max max_i (map SingleBlock.i (Tetromino.blocks s)) →
  ∃ s', Tetromino._check_boundaries s = Ok s' ∧
    Tetromino.i s' = Tetromino.i s ∧ Tetromino.j s' = Tetromino.j s ∧
    Tetromino.done s' = Tetromino.done s ∧
    (min_j < 0 →
     Tetromino.blocks s'
     = map (λ b, SingleBlock.mk (SingleBlock.i b) (SingleBlock.j b + (0 - min_j))
                                (SingleBlock.color b)) (Tetromino.blocks s)) ∧
    (0 ≤ min_j → GRID_WIDTH - 1 < max_j →
     Tetromino.blocks s'
     = map (λ b, SingleBlock.mk (SingleBlock.i b)
                                (SingleBlock.j b - (max_j - (GRID_WIDTH - 1)))
                                (SingleBlock.color b)) (Tetromino.blocks s)) ∧
    (0 ≤ min_j → max_j ≤ GRID_WIDTH - 1 → GRID_HEIGHT - 1 < max_i →
     Tetromino.blocks s'
     = map (λ b, SingleBlock.mk (SingleBlock.i b - (max_i - (GRID_HEIGHT - 1)))
                                (SingleBlock.j b)
                                (SingleBlock.color b)) (Tetromino.blocks s)) ∧
    (0 ≤ min_j → max_j ≤ GRID_WIDTH - 1 → max_i ≤ GRID_HEIGHT - 1 →
     Tetromino.blocks s' = Tetromino.blocks s).
Proof. apply check_boundaries_cases. Qed.

Lemma check_boundaries_one_axis_witness :
  ∃ s', Tetromino._check_boundaries L_in_corner = Ok s' ∧
        Tetromino.blocks s'
        = [SingleBlock.mk 18 2 BLUE; SingleBlock.mk 18 1 BLUE;
           SingleBlock.mk 18 0 BLUE; SingleBlock.mk 19 0 BLUE].
Proof.
  destruct (check_boundaries_one_axis L_in_corner (-1) 1 19)
    as (s' & Hs' & _ & _ & _ & Hleft & _).
  - split; [simpl; set_solver|]. intros y Hy. simpl in Hy.
    repeat (apply elem_of_cons in Hy as [-> | Hy]; [lia|]).
    by apply elem_of_nil in Hy.
  - split; [simpl; set_solver|]. intros y Hy. simpl in Hy.
    repeat (apply elem_of_cons in Hy as [-> | Hy]; [lia|]).
    by apply elem_of_nil in Hy.
  - split; [simpl; set_solver|]. intros y Hy. simpl in Hy.
    repeat (apply elem_of_cons in Hy as [-> | Hy]; [lia|]).
    by apply elem_of_nil in Hy.
  - exists s'. split; [exact Hs'|]. rewrite Hleft; [reflexivity | lia].
Defined.

Lemma elem_of_map_coord (f : SingleBlock.t → Z) (bs : list SingleBlock.t) (z : Z) :
  z ∈ map f bs → ∃ b, b ∈ bs ∧ z = f b.
Proof.
  intros Hz. apply list_elem_of_In, in_map_iff in Hz as (b & <- & Hb).
  exists b. split; [by apply list_elem_of_In | done].
Qed.

Lemma map_coord_elem_of (f : SingleBlock.t → Z) (bs : list SingleBlock.t)
    (b : SingleBlock.t) :
  b ∈ bs → f b ∈ map f bs.
Proof. intros Hb. apply list_elem_of_In, in_map, list_elem_of_In, Hb. Qed.

(** Inside the grid (rows are only checked against the floor) the
    correction is the identity. *)
Lemma check_boundaries_inside (s : Tetromino.t) :
  Tetromino.blocks s ≠ [] →
  (∀ b, b ∈ Tetromino.blocks s →
        0 ≤ SingleBlock.j b ≤ GRID_WIDTH - 1 ∧ SingleBlock.i b ≤ GRID_HEIGHT - 1) →
  Tetromino._check_boundaries s = Ok s.
Proof.
  intros Hne Hin.
  assert (Hnej : map SingleBlock.j (Tetromino.blocks s) ≠ []).
  { by destruct (Tetromino.blocks s). }
  assert (Hnei : map SingleBlock.i (Tetromino.blocks s) ≠ []).
  { by destruct (Tetromino.blocks s). }
  destruct (py_min_total _ Hnej) as (mn & _ & Hmn).
  destruct (py_max_total _ Hnej) as (mxj & _ & Hmxj).
  destruct (py_max_total _ Hnei) as (mxi & _ & Hmxi).
  destruct (check_boundaries_cases s mn mxj mxi Hmn Hmxj Hmxi)
    as (s' & Hs' & _ & _ & _ & _ & _ & _ & Hsame).
  destruct (check_boundaries_keeps _ _ Hs') as (Hc & Hi & Hj & Hd & Hic & _).
  destruct (elem_of_map_coord _ _ _ (proj1 Hmn)) as (b1 & Hb1 & ->).
  destruct (elem_of_map_coord _ _ _ (proj1 Hmxj)) as (b2 & Hb2 & ->).
  destruct (elem_of_map_coord _ _ _ (proj1 Hmxi)) as (b3 & Hb3 & ->).
  pose proof (Hin b1 Hb1). pose proof (Hin b2 Hb2). pose proof (Hin b3 Hb3).
  rewrite Hs'. f_equal. destruct s, s'; simpl in *.
  rewrite Hsame by lia. congruence.
Qed.

(** C2. Rotation sends the block at offset [(di, dj)] from the reference
    coordinate to offset [(dj, -di)] (clockwise) or [(-dj, di)]
    (anticlockwise), for every block.  The rotated list is always handed to
    the boundary correction, and to nothing else: the key handler gives the
    same result whatever cells are occupied, and a rotated piece that lies
    inside the grid is kept as it is. *)
Theorem rotation_maps_offsets (s : Tetromino.t) :
  let ref_i := Tetromino.i s in
  let ref_j := Tetromino.j s in
  let di b := SingleBlock.i b - ref_i in
  let dj b := SingleBlock.j b - ref_j in
  let cw := map (λ b, SingleBlock.mk (ref_i + dj b) (ref_j - di b)
                                     (SingleBlock.color b)) (Tetromino.blocks s) in
  let acw := map (λ b, SingleBlock.mk (ref_i - dj b) (ref_j + di b)
                                      (SingleBlock.color b)) (Tetromino.blocks s) in
  let inside (bs : list SingleBlock.t) :=
    ∀ b, b ∈ bs → 0 ≤ SingleBlock.j b ≤ GRID_WIDTH - 1 ∧
                  SingleBlock.i b ≤ GRID_HEIGHT - 1 in
  Tetromino.rotate_clockwise s
    = Tetromino._check_boundaries (Tetromino.set_blocks cw s) ∧
  Tetromino.rotate_anticlockwise s
    = Tetromino._check_boundaries (Tetromino.set_blocks acw s) ∧
  (∀ pos, on_keydown pos K_x s = Tetromino.rotate_clockwise s ∧
          on_keydown pos K_y s = Tetromino.rotate_anticlockwise s) ∧
  (Tetromino.blocks s ≠ [] → inside cw →
   Tetromino.rotate_clockwise s = Ok (Tetromino.set_blocks cw s)) ∧
  (Tetromino.blocks s ≠ [] → inside acw →
   Tetromino.rotate_anticlockwise s = Ok (Tetromino.set_blocks acw s)).
Proof.
  intros ref_i ref_j di dj cw acw inside.
  assert (Hcw : Tetromino.rotate_clockwise s
                = Tetromino._check_boundaries (Tetromino.set_blocks cw s))
    by reflexivity.
  assert (Hacw : Tetromino.rotate_anticlockwise s
                 = Tetromino._check_boundaries (Tetromino.set_blocks acw s))
    by reflexivity.
  repeat split; try done.
  - unfold on_keydown. by destruct (Tetromino.rotate_clockwise s).
  - unfold on_keydown. by destruct (Tetromino.rotate_anticlockwise s).
  - intros Hne Hin. rewrite Hcw. apply check_boundaries_inside; [|done].
    simpl. subst cw. by destruct (Tetromino.blocks s).
  - intros Hne Hin. rewrite Hacw. apply check_boundaries_inside; [|done].
    simpl. subst acw. by destruct (Tetromino.blocks s).
Qed.

Lemma rotation_maps_offsets_witness :
  Tetromino.rotate_clockwise I_on_floor
  = Ok (Tetromino.set_blocks [cyan 17 5; cyan 17 4; cyan 17 3; cyan 17 2]
                             I_on_floor) ∧
  Tetromino.rotate_anticlockwise I_on_floor
  = Ok (Tetromino.set_blocks [cyan 17 3; cyan 17 4; cyan 17 5; cyan 17 6]
                             I_on_floor).
Proof.
  destruct (rotation_maps_offsets I_on_floor) as (_ & _ & _ & Hcw & Hacw).
  split.
  - apply Hcw; [done|]. intros b Hb. simpl in Hb.
    unfold GRID_WIDTH, GRID_HEIGHT.
    repeat (apply elem_of_cons in Hb as [-> | Hb]; [simpl; lia|]).
    by apply elem_of_nil in Hb.
  - apply Hacw; [done|]. intros b Hb. simpl in Hb.
    unfold GRID_WIDTH, GRID_HEIGHT.
    repeat (apply elem_of_cons in Hb as [-> | Hb]; [simpl; lia|]).
    by apply elem_of_nil in Hb.
Defined.

(** ** Construction *)

(** Every class that assigns [center] builds four blocks of its colour, laid
    out around the pivot, with the flag cleared. *)
Lemma init_with_center (c : TetrominoClass) (x y i0 j0 : Z) :
  class_center c = Some (x, y) →
  ∃ p, Tetromino.__init__ c i0 j0 = Ok p ∧
       Tetromino.cls p = c ∧ Tetromino.i p = i0 ∧ Tetromino.j p = j0 ∧
       Tetromino.done p = false ∧
       Tetromino.initial_coords p
       = map (λ q : Z * Z, (q.1 - x, q.2 - y)) (class_initial_coords c) ∧
       Tetromino.blocks p
       = map (λ q : Z * Z, SingleBlock.mk (i0 + (q.1 - x)) (j0 + (q.2 - y))
                                          (class_color c))
             (class_initial_coords c) ∧
       length (Tetromino.blocks p) = 4%nat.
Proof.
  intros Hc. unfold Tetromino.__init__, Tetromino._center_coords.
  rewrite Hc. simpl. eexists. split; [reflexivity|]. simpl.
  repeat split; try done.
  - by rewrite map_map.
  - rewrite !length_map. by destruct c.
Qed.

(** C8 (the code departs from it). [Square] assigns no [center], so
    [_center_coords] raises [AttributeError] before any block is built:
    construction of the seventh variant is not total. *)
Theorem Square_construction_raises (i0 j0 : Z) :
  Tetromino.__init__ Square i0 j0 = Raise AttributeError.
Proof. reflexivity. Qed.

(** The six other classes are total. *)
Lemma construction_total_for_six (c : TetrominoClass) (i0 j0 : Z) :
  c ∈ tetromino_classes →
  ∃ p, Tetromino.__init__ c i0 j0 = Ok p ∧
       length (Tetromino.blocks p) = 4%nat ∧
       (∀ b, b ∈ Tetromino.blocks p → SingleBlock.color b = class_color c).
Proof.
  intros Hc.
  assert (Hcen : ∃ x y, class_center c = Some (x, y)).
  { destruct c; simpl; eauto.
    exfalso. unfold tetromino_classes in Hc.
    repeat (apply elem_of_cons in Hc as [Hc | Hc]; [discriminate|]).
    by apply elem_of_nil in Hc. }
  destruct Hcen as (x & y & Hcen).
  destruct (init_with_center c x y i0 j0 Hcen)
    as (p & Hp & _ & _ & _ & _ & _ & Hbs & Hlen).
  exists p. repeat split; try done.
  intros b Hb. rewrite Hbs in Hb.
  apply list_elem_of_In, in_map_iff in Hb as (q & <- & _). done.
Qed.

(** ** The settled flag *)

Lemma step_down_cases (pos : gset (Z * Z)) (s : Tetromino.t) :
  Tetromino.step_down pos s = Tetromino.set_done true s ∨
  (Tetromino.step_down pos s
   = Tetromino.mk (Tetromino.cls s) (Tetromino.i s + 1) (Tetromino.j s)
       (Tetromino.initial_coords s)
       (map SingleBlock.step_down (Tetromino.blocks s)) (Tetromino.done s) ∧
   ∀ b, b ∈ Tetromino.blocks s → SingleBlock.i b + 1 < GRID_HEIGHT).
Proof.
  unfold Tetromino.step_down.
  destruct (any _ _) eqn:Hfloor; [by left|].
  destruct (any _ _) eqn:Hocc in |- *; [by left|].
  right. split; [done|]. intros b Hb.
  pose proof (proj1 (any_false _ _) Hfloor (SingleBlock.step_down b)) as Hrow.
  rewrite bool_decide_eq_false in Hrow. simpl in Hrow.
  assert (SingleBlock.step_down b ∈ map SingleBlock.step_down (Tetromino.blocks s)).
  { apply list_elem_of_In, in_map, list_elem_of_In, Hb. }
  specialize (Hrow H). lia.
Qed.

Lemma step_left_cases (pos : gset (Z * Z)) (s : Tetromino.t) :
  Tetromino.step_left pos s = s ∨
  (Tetromino.step_left pos s
   = Tetromino.mk (Tetromino.cls s) (Tetromino.i s) (Tetromino.j s - 1)
       (Tetromino.initial_coords s)
       (map SingleBlock.step_left (Tetromino.blocks s)) (Tetromino.done s) ∧
   ∀ b, b ∈ Tetromino.blocks s → 0 ≤ SingleBlock.j b - 1).
Proof.
  unfold Tetromino.step_left.
  destruct (any _ _) eqn:Hwall; [by left|].
  destruct (any _ _) eqn:Hocc in |- *; [by left|].
  right. split; [done|]. intros b Hb.
  pose proof (proj1 (any_false _ _) Hwall (SingleBlock.step_left b)) as Hcol.
  rewrite bool_decide_eq_false in Hcol. simpl in Hcol.
  assert (SingleBlock.step_left b ∈ map SingleBlock.step_left (Tetromino.blocks s)).
  { apply list_elem_of_In, in_map, list_elem_of_In, Hb. }
  specialize (Hcol H). lia.
Qed.

Lemma step_right_cases (pos : gset (Z * Z)) (s : Tetromino.t) :
  Tetromino.step_right pos s = s ∨
  (Tetromino.step_right pos s
   = Tetromino.mk (Tetromino.cls s) (Tetromino.i s) (Tetromino.j s + 1)
       (Tetromino.initial_coords s)
       (map SingleBlock.step_right (Tetromino.blocks s)) (Tetromino.done s) ∧
   ∀ b, b ∈ Tetromino.blocks s → SingleBlock.j b + 1 ≤ GRID_WIDTH - 1).
Proof.
  unfold Tetromino.step_right.
  destruct (any _ _) eqn:Hwall; [by left|].
  destruct (any _ _) eqn:Hocc in |- *; [by left|].
  right. split; [done|]. intros b Hb.
  pose proof (proj1 (any_false _ _) Hwall (SingleBlock.step_right b)) as Hcol.
  rewrite bool_decide_eq_false in Hcol. simpl in Hcol.
  assert (SingleBlock.step_right b ∈ map SingleBlock.step_right (Tetromino.blocks s)).
  { apply list_elem_of_In, in_map, list_elem_of_In, Hb. }
  specialize (Hcol H). lia.
Qed.

Lemma rotate_clockwise_keeps (s s' : Tetromino.t) :
  Tetromino.rotate_clockwise s = Ok s' →
  Tetromino.cls s' = Tetromino.cls s ∧ Tetromino.i s' = Tetromino.i s ∧
  Tetromino.j s' = Tetromino.j s ∧ Tetromino.done s' = Tetromino.done s ∧
  length (Tetromino.blocks s') = length (Tetromino.blocks s).
Proof.
  intros Hrot. apply check_boundaries_keeps in Hrot as (? & ? & ? & ? & ? & Hlen).
  simpl in *. by rewrite length_map in Hlen.
Qed.

Lemma rotate_anticlockwise_keeps (s s' : Tetromino.t) :
  Tetromino.rotate_anticlockwise s = Ok s' →
  Tetromino.cls s' = Tetromino.cls s ∧ Tetromino.i s' = Tetromino.i s ∧
  Tetromino.j s' = Tetromino.j s ∧ Tetromino.done s' = Tetromino.done s ∧
  length (Tetromino.blocks s') = length (Tetromino.blocks s).
Proof.
  intros Hrot. apply check_boundaries_keeps in Hrot as (? & ? & ? & ? & ? & Hlen).
  simpl in *. by rewrite length_map in Hlen.
Qed.

Lemma rotate_clockwise_total (s : Tetromino.t) :
  Tetromino.blocks s ≠ [] → ∃ s', Tetromino.rotate_clockwise s = Ok s'.
Proof.
  intros Hne. apply check_boundaries_total. simpl.
  by destruct (Tetromino.blocks s).
Qed.

Lemma rotate_anticlockwise_total (s : Tetromino.t) :
  Tetromino.blocks s ≠ [] → ∃ s', Tetromino.rotate_anticlockwise s = Ok s'.
Proof.
  intros Hne. apply check_boundaries_total. simpl.
  by destruct (Tetromino.blocks s).
Qed.

(** C9 fails: the moves do not look at the flag.  A piece settled on the
    floor still goes left, and still turns. *)
Lemma settled_piece_still_moves :
  Tetromino.done I_settled = true ∧
  Tetromino.blocks (Tetromino.step_left ∅ I_settled)
  ≠ Tetromino.blocks I_settled ∧
  Tetromino.j (Tetromino.step_left ∅ I_settled) ≠ Tetromino.j I_settled ∧
  Tetromino.blocks I_settled = [cyan 16 4; cyan 17 4; cyan 18 4; cyan 19 4] ∧
  Tetromino.blocks (Tetromino.step_left ∅ I_settled)
  = [cyan 16 3; cyan 17 3; cyan 18 3; cyan 19 3] ∧
  Tetromino.rotate_clockwise I_settled
  = Ok (Tetromino.set_blocks [cyan 17 5; cyan 17 4; cyan 17 3; cyan 17 2]
                             I_settled) ∧
  locked_blocks (run [draw 4; keys (replicate 18 K_DOWN ++ [K_LEFT])])
  = [cyan 16 3; cyan 17 3; cyan 18 3; cyan 19 3].
Proof. vm_compute. repeat split; done. Qed.

(** C9, amended. Once the flag is set no operation clears it, every
    rotation of a piece that has blocks returns, and a step down that is
    refused again changes nothing at all.  (The other moves act on a settled
    piece as on a falling one.) *)
Theorem settled_flag_is_never_cleared (pos : gset (Z * Z)) (s : Tetromino.t) :
  Tetromino.done s = true →
  Tetromino.done (Tetromino.step_down pos s) = true ∧
  Tetromino.done (Tetromino.step_left pos s) = true ∧
  Tetromino.done (Tetromino.step_right pos s) = true ∧
  (∀ s', Tetromino.rotate_clockwise s = Ok s' → Tetromino.done s' = true) ∧
  (∀ s', Tetromino.rotate_anticlockwise s = Ok s' → Tetromino.done s' = true) ∧
  (Tetromino.blocks s ≠ [] →
   (∃ s', Tetromino.rotate_clockwise s = Ok s') ∧
   (∃ s', Tetromino.rotate_anticlockwise s = Ok s')) ∧
  ((∃ b, b ∈ Tetromino.blocks s ∧
         (SingleBlock.i b + 1 >= GRID_HEIGHT ∨
          (SingleBlock.i b + 1, SingleBlock.j b) ∈ pos)) →
   Tetromino.step_down pos s = s).
Proof.
  intros Hdone. repeat split.
  - destruct (step_down_cases pos s) as [-> | [-> _]]; done.
  - destruct (step_left_cases pos s) as [-> | [-> _]]; done.
  - destruct (step_right_cases pos s) as [-> | [-> _]]; done.
  - intros s' Hrot. apply rotate_clockwise_keeps in Hrot as (_ & _ & _ & -> & _).
    done.
  - intros s' Hrot.
    apply rotate_anticlockwise_keeps in Hrot as (_ & _ & _ & -> & _). done.
  - by apply rotate_clockwise_total.
  - by apply rotate_anticlockwise_total.
  - intros (b & Hb & Hblocked).
    destruct (step_down_spec pos s) as [Hrej _].
    destruct Hrej as (Hd & Hbs & Hi & Hj).
    { exists (SingleBlock.step_down b). split; [|done].
      apply list_elem_of_In, in_map, list_elem_of_In, Hb. }
    destruct (step_down_cases pos s) as [-> | [Heq _]].
    + destruct s; simpl in *. by rewrite Hdone.
    + rewrite Heq in Hi. simpl in Hi. lia.
Qed.

Lemma settled_flag_is_never_cleared_witness :
  Tetromino.done (Tetromino.step_left ∅ I_settled) = true ∧
  Tetromino.step_down ∅ I_settled = I_settled.
Proof.
  destruct (settled_flag_is_never_cleared ∅ I_settled) as (_ & Hl & _ & _ & _ & _ & Hd).
  - reflexivity.
  - split; [exact Hl|]. apply Hd. exists (cyan 19 4). split.
    + vm_compute. do 3 apply list_elem_of_further. apply list_elem_of_here.
    + left. vm_compute. discriminate.
Defined.

(** ** Invariants of the game loop *)

Lemma elem_of_map_block (f : SingleBlock.t → SingleBlock.t)
    (bs : list SingleBlock.t) (b : SingleBlock.t) :
  b ∈ map f bs → ∃ b0, b0 ∈ bs ∧ b = f b0.
Proof.
  intros Hb. apply list_elem_of_In, in_map_iff in Hb as (b0 & <- & Hb0).
  exists b0. split; [by apply list_elem_of_In | done].
Qed.

Lemma spawned_piece_inv (c : TetrominoClass) :
  c ∈ tetromino_classes →
  ∃ p, Tetromino.__init__ c START_POSITION.1 START_POSITION.2 = Ok p ∧
       piece_inv p ∧ Tetromino.cls p = c ∧ Tetromino.done p = false ∧
       ∀ b, b ∈ Tetromino.blocks p → -1 ≤ SingleBlock.i b ≤ 2.
Proof.
  intros Hc. pose proof Hc as Hc'. unfold tetromino_classes in Hc'.
  each_block Hc'; (eexists; split; [reflexivity|]);
    unfold piece_inv, cols_inside, compact, GRID_WIDTH; simpl;
    (split; [split; [done|split; [done|split]]|split; [done|split; [done|]]]).
  all: try (intros b Hb; each_block Hb; simpl; lia).
  all: intros b1 b2 H1 H2; each_block H1; each_block H2; simpl; lia.
Qed.

Lemma compact_translate (di dj : Z) (bs : list SingleBlock.t) :
  compact bs →
  compact (map (λ b, SingleBlock.mk (SingleBlock.i b + di) (SingleBlock.j b + dj)
                                    (SingleBlock.color b)) bs).
Proof.
  intros Hc b1 b2 H1 H2.
  apply elem_of_map_block in H1 as (a1 & Ha1 & ->).
  apply elem_of_map_block in H2 as (a2 & Ha2 & ->).
  destruct (Hc a1 a2 Ha1 Ha2). simpl. lia.
Qed.

Lemma map_translate (f : SingleBlock.t → SingleBlock.t) (di dj : Z)
    (bs : list SingleBlock.t) :
  (∀ b, f b = SingleBlock.mk (SingleBlock.i b + di) (SingleBlock.j b + dj)
                             (SingleBlock.color b)) →
  map f bs
  = map (λ b, SingleBlock.mk (SingleBlock.i b + di) (SingleBlock.j b + dj)
                             (SingleBlock.color b)) bs.
Proof. intros Hf. by apply map_ext. Qed.

Lemma piece_inv_step_down (pos : gset (Z * Z)) (p : Tetromino.t) :
  piece_inv p → piece_inv (Tetromino.step_down pos p).
Proof.
  intros (Hlen & Hcls & Hcols & Hcomp).
  destruct (step_down_cases pos p) as [-> | [-> _]]; [done|].
  unfold piece_inv. simpl. rewrite length_map.
  split; [done|]. split; [done|]. split.
  - intros b Hb. apply elem_of_map_block in Hb as (b0 & Hb0 & ->).
    destruct (Hcols b0 Hb0). simpl. lia.
  - rewrite (map_translate _ 1 0) by (intros b; unfold SingleBlock.step_down;
                                      f_equal; lia).
    by apply compact_translate.
Qed.

Lemma piece_inv_step_left (pos : gset (Z * Z)) (p : Tetromino.t) :
  piece_inv p → piece_inv (Tetromino.step_left pos p).
Proof.
  intros (Hlen & Hcls & Hcols & Hcomp).
  destruct (step_left_cases pos p) as [-> | [-> Hlow]]; [done|].
  unfold piece_inv. simpl. rewrite length_map.
  split; [done|]. split; [done|]. split.
  - intros b Hb. apply elem_of_map_block in Hb as (b0 & Hb0 & ->).
    destruct (Hcols b0 Hb0). specialize (Hlow b0 Hb0). simpl. lia.
  - rewrite (map_translate _ 0 (-1)) by (intros b; unfold SingleBlock.step_left;
                                         f_equal; lia).
    by apply compact_translate.
Qed.

Lemma piece_inv_step_right (pos : gset (Z * Z)) (p : Tetromino.t) :
  piece_inv p → piece_inv (Tetromino.step_right pos p).
Proof.
  intros (Hlen & Hcls & Hcols & Hcomp).
  destruct (step_right_cases pos p) as [-> | [-> Hhigh]]; [done|].
  unfold piece_inv. simpl. rewrite length_map.
  split; [done|]. split; [done|]. split.
  - intros b Hb. apply elem_of_map_block in Hb as (b0 & Hb0 & ->).
    destruct (Hcols b0 Hb0). specialize (Hhigh b0 Hb0). simpl. lia.
  - rewrite (map_translate _ 0 1) by (intros b; unfold SingleBlock.step_right;
                                      f_equal; lia).
    by apply compact_translate.
Qed.

Lemma compact_shift (f : SingleBlock.t → SingleBlock.t) (di dj : Z)
    (bs : list SingleBlock.t) :
  (∀ b, SingleBlock.i (f b) = SingleBlock.i b + di ∧
        SingleBlock.j (f b) = SingleBlock.j b + dj) →
  compact bs → compact (map f bs).
Proof.
  intros Hf Hc b1 b2 H1 H2.
  apply elem_of_map_block in H1 as (a1 & Ha1 & ->).
  apply elem_of_map_block in H2 as (a2 & Ha2 & ->).
  destruct (Hc a1 a2 Ha1 Ha2). destruct (Hf a1), (Hf a2). lia.
Qed.

Lemma compact_turn_clockwise (s : Tetromino.t) (bs : list SingleBlock.t) :
  compact bs → compact (map (Tetromino.turn_clockwise s) bs).
Proof.
  intros Hc b1 b2 H1 H2.
  apply elem_of_map_block in H1 as (a1 & Ha1 & ->).
  apply elem_of_map_block in H2 as (a2 & Ha2 & ->).
  destruct (Hc a1 a2 Ha1 Ha2), (Hc a2 a1 Ha2 Ha1). simpl. lia.
Qed.

Lemma compact_turn_anticlockwise (s : Tetromino.t) (bs : list SingleBlock.t) :
  compact bs → compact (map (Tetromino.turn_anticlockwise s) bs).
Proof.
  intros Hc b1 b2 H1 H2.
  apply elem_of_map_block in H1 as (a1 & Ha1 & ->).
  apply elem_of_map_block in H2 as (a2 & Ha2 & ->).
  destruct (Hc a1 a2 Ha1 Ha2), (Hc a2 a1 Ha2 Ha1). simpl. lia.
Qed.

(** A compact piece comes out of the correction with its columns inside the
    grid, whichever branch is taken. *)
Lemma piece_inv_check_boundaries (s : Tetromino.t) :
  length (Tetromino.blocks s) = 4%nat →
  Tetromino.cls s ∈ tetromino_classes →
  compact (Tetromino.blocks s) →
  ∃ s', Tetromino._check_boundaries s = Ok s' ∧ piece_inv s'.
Proof.
  intros Hlen Hcls Hcomp.
  assert (Hne : Tetromino.blocks s ≠ []) by (by destruct (Tetromino.blocks s)).
  assert (Hnej : map SingleBlock.j (Tetromino.blocks s) ≠ []).
  { by destruct (Tetromino.blocks s). }
  assert (Hnei : map SingleBlock.i (Tetromino.blocks s) ≠ []).
  { by destruct (Tetromino.blocks s). }
  destruct (py_min_total _ Hnej) as (mn & _ & Hmn).
  destruct (py_max_total _ Hnej) as (mxj & _ & Hmxj).
  destruct (py_max_total _ Hnei) as (mxi & _ & Hmxi).
  destruct (check_boundaries_cases s mn mxj mxi Hmn Hmxj Hmxi)
    as (s' & Hs' & _ & _ & _ & Hlow & Hhigh & Hfloor & Hsame).
  destruct (check_boundaries_keeps _ _ Hs') as (Hc & _ & _ & _ & _ & Hl).
  exists s'. split; [done|].
  unfold piece_inv. rewrite Hl, Hc. split; [done|]. split; [done|].
  destruct Hmn as [Hmn_in Hmn_le], Hmxj as [Hmxj_in Hmxj_le].
  destruct (elem_of_map_coord _ _ _ Hmn_in) as (bmin & Hbmin & ->).
  destruct (elem_of_map_coord _ _ _ Hmxj_in) as (bmax & Hbmax & ->).
  assert (Hbetween : ∀ b, b ∈ Tetromino.blocks s →
            SingleBlock.j bmin ≤ SingleBlock.j b ≤ SingleBlock.j bmax ∧
            SingleBlock.j b - SingleBlock.j bmin ≤ 3 ∧
            SingleBlock.j bmax - SingleBlock.j b ≤ 3).
  { intros b Hb.
    pose proof (Hmn_le _ (map_coord_elem_of SingleBlock.j _ _ Hb)).
    pose proof (Hmxj_le _ (map_coord_elem_of SingleBlock.j _ _ Hb)).
    destruct (Hcomp b bmin Hb Hbmin), (Hcomp bmax b Hbmax Hb). lia. }
  unfold cols_inside, GRID_WIDTH in *.
  destruct (decide (SingleBlock.j bmin < 0)) as [Hneg | Hpos].
  { rewrite (Hlow Hneg). split.
    - intros b Hb. apply elem_of_map_block in Hb as (b0 & Hb0 & ->).
      specialize (Hbetween b0 Hb0). simpl. lia.
    - apply (compact_shift _ 0 (0 - SingleBlock.j bmin)); [|done].
      intros b. simpl. lia. }
  destruct (decide (10 - 1 < SingleBlock.j bmax)) as [Hbig | Hsmall].
  { rewrite (Hhigh ltac:(lia) Hbig). split.
    - intros b Hb. apply elem_of_map_block in Hb as (b0 & Hb0 & ->).
      specialize (Hbetween b0 Hb0). simpl. lia.
    - apply (compact_shift _ 0 (- (SingleBlock.j bmax - (10 - 1)))); [|done].
      intros b. simpl. lia. }
  destruct (decide (GRID_HEIGHT - 1 < mxi)) as [Hdeep | Hok].
  { rewrite (Hfloor ltac:(lia) ltac:(lia) Hdeep). split.
    - intros b Hb. apply elem_of_map_block in Hb as (b0 & Hb0 & ->).
      specialize (Hbetween b0 Hb0). simpl. lia.
    - apply (compact_shift _ (- (mxi - (GRID_HEIGHT - 1))) 0); [|done].
      intros b. simpl. lia. }
  rewrite (Hsame ltac:(lia) ltac:(lia) ltac:(lia)). split; [|done].
  intros b Hb. specialize (Hbetween b Hb). lia.
Qed.

Lemma piece_inv_rotate_clockwise (p : Tetromino.t) :
  piece_inv p → ∃ p', Tetromino.rotate_clockwise p = Ok p' ∧ piece_inv p'.
Proof.
  intros (Hlen & Hcls & _ & Hcomp).
  apply piece_inv_check_boundaries; simpl.
  - by rewrite length_map.
  - done.
  - by apply compact_turn_clockwise.
Qed.

Lemma piece_inv_rotate_anticlockwise (p : Tetromino.t) :
  piece_inv p → ∃ p', Tetromino.rotate_anticlockwise p = Ok p' ∧ piece_inv p'.
Proof.
  intros (Hlen & Hcls & _ & Hcomp).
  apply piece_inv_check_boundaries; simpl.
  - by rewrite length_map.
  - done.
  - by apply compact_turn_anticlockwise.
Qed.

Lemma piece_inv_on_keydown (pos : gset (Z * Z)) (key : Key) (p : Tetromino.t) :
  piece_inv p → ∃ p', on_keydown pos key p = Ok p' ∧ piece_inv p'.
Proof.
  intros Hp. unfold on_keydown. destruct key; simpl.
  - destruct (piece_inv_rotate_clockwise p Hp) as (p' & -> & Hp'). simpl. eauto.
  - destruct (piece_inv_rotate_anticlockwise p Hp) as (p' & -> & Hp'). simpl. eauto.
  - eexists. split; [done|]. by apply piece_inv_step_left.
  - eexists. split; [done|]. by apply piece_inv_step_right.
  - eexists. split; [done|]. by apply piece_inv_step_down.
  - eauto.
Qed.

Lemma piece_inv_on_events (pos : gset (Z * Z)) (evs : list Event) (p : Tetromino.t) :
  piece_inv p →
  on_events pos evs p = Ok None ∨
  ∃ p', on_events pos evs p = Ok (Some p') ∧ piece_inv p'.
Proof.
  revert p. induction evs as [|ev evs IH]; intros p Hp; simpl.
  - right. eauto.
  - destruct ev as [|key|key].
    + by left.
    + destruct (piece_inv_on_keydown pos key p Hp) as (p' & -> & Hp'). simpl.
      by apply IH.
    + by apply IH.
Qed.

Lemma cols_inside_app (bs1 bs2 : list SingleBlock.t) :
  cols_inside bs1 → cols_inside bs2 → cols_inside (bs1 ++ bs2).
Proof.
  intros H1 H2 b Hb. apply elem_of_app in Hb as [Hb | Hb]; auto.
Qed.

Lemma state_inv_frame (evs : list Event) (l : Loop) (p : Tetromino.t) :
  loop_inv l → game_over l = false → piece_inv p →
  state_inv (frame evs l p).
Proof.
  intros [Hlocked Hover] Hfalse Hp. unfold frame.
  destruct (piece_inv_on_events (Grid.positions (grid l)) evs p Hp)
    as [-> | (p1 & -> & Hp1)]; [done|].
  set (tick := if bool_decide (counter l = 30) then _ else _).
  assert (Htick : piece_inv tick.1).
  { subst tick. case_bool_decide; simpl; [by apply piece_inv_step_down | done]. }
  destruct tick as [p2 c]. simpl in Htick.
  destruct (Tetromino.done p2) eqn:Hdone; simpl.
  - split; simpl.
    + apply cols_inside_app; [done|]. by destruct Htick as (_ & _ & ? & _).
    + case_bool_decide; [done|]. rewrite Hfalse. split; [done|]. done.
  - done.
Qed.

Lemma random_choice_classes (r : nat) :
  ∃ c, random_choice r tetromino_classes = Some c ∧ c ∈ tetromino_classes.
Proof.
  unfold random_choice.
  assert (Hlt : (r `mod` length tetromino_classes < length tetromino_classes)%nat).
  { apply Nat.mod_upper_bound. done. }
  destruct (lookup_lt_is_Some_2 _ _ Hlt) as [c Hc].
  exists c. split; [done|]. by eapply list_elem_of_lookup_2.
Qed.

Lemma state_inv_spawn (r : nat) (l : Loop) : loop_inv l → state_inv (spawn r l).
Proof.
  intros Hl. unfold spawn. destruct (game_over l) eqn:Hover; [done|].
  destruct (random_choice_classes r) as (c & -> & Hc).
  destruct (spawned_piece_inv c Hc) as (p & -> & Hp & _). done.
Qed.

Lemma state_inv_step (s : State) (inp : Input) : state_inv s → state_inv (step s inp).
Proof.
  destruct s as [l|l p|l|e]; simpl; try done.
  - apply state_inv_spawn.
  - intros (? & ? & ?). by apply state_inv_frame.
Qed.

Lemma state_inv_foldl (inputs : list Input) (s : State) :
  state_inv s → state_inv (foldl step s inputs).
Proof.
  revert s. induction inputs as [|inp inputs IH]; intros s Hs; simpl; [done|].
  by apply IH, state_inv_step.
Qed.

Lemma state_inv_run (inputs : list Input) : state_inv (run inputs).
Proof.
  apply state_inv_foldl. split; simpl.
  - intros b Hb. by apply elem_of_nil in Hb.
  - split; [done|]. intros Hin. by apply elem_of_empty in Hin.
Qed.

(** The live piece at any point of any run: the piece of a reachable state,
    after any number of the events of the current pass have been handled. *)
Lemma live_piece_inv (inputs : list Input) (l : Loop) (p0 p : Tetromino.t)
    (evs : list Event) :
  run inputs = Falling l p0 →
  on_events (Grid.positions (grid l)) evs p0 = Ok (Some p) →
  piece_inv p.
Proof.
  intros Hrun Hevs.
  pose proof (state_inv_run inputs) as Hinv. rewrite Hrun in Hinv.
  destruct Hinv as (_ & _ & Hp0).
  destruct (piece_inv_on_events (Grid.positions (grid l)) evs p0 Hp0)
    as [Hquit | (p' & Hp' & Hinv')]; congruence.
Qed.

(** C7 fails.  Every piece is born with a block in row -1; the second turn
    of the L piece in the corner needs both a column and a row correction
    and gets only the first, which leaves a block in row 20; the next step
    down locks it there. *)
Lemma blocks_outside_the_grid :
  (cyan (-1) 4 ∈ active_blocks (run [draw 4]) ∧ ¬ in_grid (cyan (-1) 4)) ∧
  (SingleBlock.mk 20 1 BLUE ∈ active_blocks (run corner_trace) ∧
   SingleBlock.mk 20 1 BLUE ∈ locked_blocks (run (corner_trace ++ [keys [K_DOWN]])) ∧
   ¬ in_grid (SingleBlock.mk 20 1 BLUE)).
Proof.
  split; [split|split; [|split]].
  - vm_compute. apply list_elem_of_here.
  - unfold in_grid. simpl. lia.
  - vm_compute. apply list_elem_of_here.
  - vm_compute. apply list_elem_of_here.
  - unfold in_grid, GRID_HEIGHT. simpl. lia.
Qed.

Lemma check_boundaries_rows (s s' : Tetromino.t) :
  cols_inside (Tetromino.blocks s) →
  Tetromino._check_boundaries s = Ok s' →
  Tetromino.blocks s' = Tetromino.blocks s ∨
  (∃ d, 0 < d ∧ Tetromino.blocks s' = map (Tetromino.shift_i d) (Tetromino.blocks s)) ∧
  rows_above_floor (Tetromino.blocks s').
Proof.
  intros Hcols Hs'.
  assert (Hne : Tetromino.blocks s ≠ []).
  { intros Hnil. unfold Tetromino._check_boundaries in Hs'.
    by rewrite Hnil in Hs'. }
  assert (Hnej : map SingleBlock.j (Tetromino.blocks s) ≠ []).
  { by destruct (Tetromino.blocks s). }
  assert (Hnei : map SingleBlock.i (Tetromino.blocks s) ≠ []).
  { by destruct (Tetromino.blocks s). }
  destruct (py_min_total _ Hnej) as (mn & _ & Hmn).
  destruct (py_max_total _ Hnej) as (mxj & _ & Hmxj).
  destruct (py_max_total _ Hnei) as (mxi & _ & Hmxi).
  destruct (check_boundaries_cases s mn mxj mxi Hmn Hmxj Hmxi)
    as (s'' & Hs'' & _ & _ & _ & _ & _ & Hfloor & Hsame).
  rewrite Hs' in Hs''. injection Hs'' as <-.
  destruct (elem_of_map_coord _ _ _ (proj1 Hmn)) as (bmin & Hbmin & ->).
  destruct (elem_of_map_coord _ _ _ (proj1 Hmxj)) as (bmax & Hbmax & ->).
  pose proof (Hcols bmin Hbmin). pose proof (Hcols bmax Hbmax).
  destruct (decide (GRID_HEIGHT - 1 < mxi)) as [Hdeep | Hok].
  - right. rewrite (Hfloor ltac:(lia) ltac:(lia) Hdeep). split.
    + exists (1 + mxi - GRID_HEIGHT). split; [lia|].
      apply map_ext. intros b. unfold Tetromino.shift_i. f_equal. lia.
    + intros b Hb. apply elem_of_map_block in Hb as (b0 & Hb0 & ->).
      pose proof (proj2 Hmxi _ (map_coord_elem_of SingleBlock.i _ _ Hb0)).
      simpl. lia.
  - left. apply Hsame; lia.
Qed.

(** C7, amended. In every reachable state, and after any part of the events
    of a pass, the columns of the active piece and of the locked blocks are
    inside the grid.  For rows: a piece built at
    the start position occupies rows -1 to 2; a step down, left or right
    never takes a piece through the floor; and a boundary correction that
    finds the columns already inside leaves every block above the floor,
    provided the blocks it did not move were. *)
Theorem columns_always_inside (inputs : list Input) :
  cols_inside (active_blocks (run inputs) ++ locked_blocks (run inputs)) ∧
  (∀ l p0 evs p, run inputs = Falling l p0 →
     on_events (Grid.positions (grid l)) evs p0 = Ok (Some p) →
     cols_inside (Tetromino.blocks p)) ∧
  (∀ c, c ∈ tetromino_classes →
     ∃ p, Tetromino.__init__ c START_POSITION.1 START_POSITION.2 = Ok p ∧
          cols_inside (Tetromino.blocks p) ∧
          ∀ b, b ∈ Tetromino.blocks p → -1 ≤ SingleBlock.i b ≤ 2) ∧
  (∀ pos s, rows_above_floor (Tetromino.blocks s) →
     rows_above_floor (Tetromino.blocks (Tetromino.step_down pos s)) ∧
     rows_above_floor (Tetromino.blocks (Tetromino.step_left pos s)) ∧
     rows_above_floor (Tetromino.blocks (Tetromino.step_right pos s))) ∧
  (∀ s s', cols_inside (Tetromino.blocks s) →
     Tetromino._check_boundaries s = Ok s' →
     Tetromino.blocks s' = Tetromino.blocks s ∨
     rows_above_floor (Tetromino.blocks s')).
Proof.
  split; [|split; [|split; [|split]]].
  - pose proof (state_inv_run inputs) as Hinv.
    destruct (run inputs) as [l|l p|l|e]; simpl in *.
    + by destruct Hinv.
    + destruct Hinv as ([Hlocked _] & _ & (_ & _ & Hcols & _)).
      by apply cols_inside_app.
    + by destruct Hinv.
    + done.
  - intros l p0 evs p Hrun Hevs.
    by destruct (live_piece_inv inputs l p0 p evs Hrun Hevs) as (_ & _ & ? & _).
  - intros c Hc.
    destruct (spawned_piece_inv c Hc) as (p & Hp & (_ & _ & Hcols & _) & _ & _ & Hrows).
    eauto.
  - intros pos s Hrows. split; [|split].
    + destruct (step_down_cases pos s) as [-> | [-> Hfree]]; [done|].
      intros b Hb. apply elem_of_map_block in Hb as (b0 & Hb0 & ->).
      specialize (Hfree b0 Hb0). simpl. lia.
    + destruct (step_left_cases pos s) as [-> | [-> _]]; [done|].
      intros b Hb. apply elem_of_map_block in Hb as (b0 & Hb0 & ->).
      simpl. by apply Hrows.
    + destruct (step_right_cases pos s) as [-> | [-> _]]; [done|].
      intros b Hb. apply elem_of_map_block in Hb as (b0 & Hb0 & ->).
      simpl. by apply Hrows.
  - intros s s' Hcols Hs'.
    destruct (check_boundaries_rows s s' Hcols Hs') as [? | [_ ?]]; auto.
Qed.

Lemma columns_always_inside_witness :
  cols_inside (active_blocks (run corner_trace)) ∧
  rows_above_floor
    (Tetromino.blocks (Tetromino.step_down ∅ I_spawned)).
Proof.
  destruct (columns_always_inside corner_trace) as (Hcols & _ & _ & Hsteps & _).
  split.
  - intros b Hb. apply Hcols, elem_of_app. by left.
  - apply Hsteps. intros b Hb. simpl in Hb. unfold GRID_HEIGHT.
    each_block Hb; simpl; lia.
Defined.

(** ** Horizontal steps of a falling piece *)

(** C4. For the live piece at any point of any run and the cells occupied
    there: when a block moved one column left (right) would leave the
    columns [0 .. GRID_WIDTH - 1] or land on an occupied cell, [step_left]
    ([step_right]) returns the piece as it was, flag included; otherwise the
    blocks are replaced by the moved ones and the reference follows. *)
Theorem horizontal_steps_reject_or_commit
    (inputs : list Input) (l : Loop) (p0 p : Tetromino.t) (evs : list Event) :
  run inputs = Falling l p0 →
  on_events (Grid.positions (grid l)) evs p0 = Ok (Some p) →
  let pos := Grid.positions (grid l) in
  let moved d :=
    map (λ b, SingleBlock.mk (SingleBlock.i b) (SingleBlock.j b + d)
                             (SingleBlock.color b)) (Tetromino.blocks p) in
  let blocked d :=
    ∃ b, b ∈ moved d ∧ (¬ (0 ≤ SingleBlock.j b ≤ GRID_WIDTH - 1) ∨
                         SingleBlock.coords b ∈ pos) in
  (blocked (-1) → Tetromino.step_left pos p = p) ∧
  (¬ blocked (-1) →
   Tetromino.step_left pos p
   = Tetromino.mk (Tetromino.cls p) (Tetromino.i p) (Tetromino.j p - 1)
       (Tetromino.initial_coords p) (moved (-1)) (Tetromino.done p)) ∧
  (blocked 1 → Tetromino.step_right pos p = p) ∧
  (¬ blocked 1 →
   Tetromino.step_right pos p
   = Tetromino.mk (Tetromino.cls p) (Tetromino.i p) (Tetromino.j p + 1)
       (Tetromino.initial_coords p) (moved 1) (Tetromino.done p)).
Proof.
  intros Hrun Hevs pos moved blocked.
  destruct (live_piece_inv inputs l p0 p evs Hrun Hevs) as (_ & _ & Hcols & _).
  assert (Hcols' : ∀ b, b ∈ Tetromino.blocks p →
                        0 ≤ SingleBlock.j b ≤ GRID_WIDTH - 1).
  { intros b Hb. specialize (Hcols b Hb). lia. }
  destruct (step_left_spec pos p Hcols') as [Hlrej Hlacc].
  destruct (step_right_spec pos p Hcols') as [Hrrej Hracc].
  assert (Hfree : ∀ d, ¬ blocked d →
            ∀ b, b ∈ moved d → 0 ≤ SingleBlock.j b ≤ GRID_WIDTH - 1 ∧
                               SingleBlock.coords b ∉ pos).
  { intros d Hnb b Hb. split.
    - destruct (decide (0 ≤ SingleBlock.j b ≤ GRID_WIDTH - 1)); [done|].
      exfalso. apply Hnb. exists b. auto.
    - intros Hocc. apply Hnb. exists b. auto. }
  split; [|split; [|split]].
  - exact Hlrej.
  - intros Hnb. rewrite Hlacc; [done|]. by apply (Hfree (-1)).
  - exact Hrrej.
  - intros Hnb. rewrite Hracc; [done|]. by apply (Hfree 1).
Qed.

Lemma horizontal_steps_reject_or_commit_witness :
  Tetromino.step_left ∅ I_left_of_start = I_left_of_start ∧
  Tetromino.blocks (Tetromino.step_right ∅ I_left_of_start)
  = [cyan (-1) 1; cyan 0 1; cyan 1 1; cyan 2 1].
Proof.
  destruct (horizontal_steps_reject_or_commit [draw 4]
              (mkLoop (Grid.__init__ 300 600) 0 false) I_spawned
              I_left_of_start (map KEYDOWN (replicate 4 K_LEFT)))
    as (Hleft & _ & _ & Hright).
  - reflexivity.
  - reflexivity.
  - split.
    + apply Hleft. exists (cyan (-1) (-1)). split.
      * simpl. apply list_elem_of_here.
      * left. simpl. lia.
    + refine (eq_trans (f_equal Tetromino.blocks (Hright _)) eq_refl).
      intros (b & Hb & Hblocked). simpl in Hb. unfold GRID_WIDTH in Hblocked.
      each_block Hb; simpl in Hblocked;
        (destruct Hblocked as [Hcol | Hocc];
         [apply Hcol; lia | by apply elem_of_empty in Hocc]).
Defined.

(** ** The spawn step *)

(** C10. No run of the loop raises, and the class of the live piece is
    always one of the six listed in [main]: [random.choice] cannot return
    [Square], so [Square] is never constructed. *)
Theorem Square_is_never_spawned (inputs : list Input) :
  crashed (run inputs) = false ∧
  (∀ c, active_class (run inputs) = Some c →
        c ∈ tetromino_classes ∧ c ≠ Square) ∧
  (∀ r, ∃ c, random_choice r tetromino_classes = Some c ∧ c ≠ Square).
Proof.
  assert (Hsix : ∀ c, c ∈ tetromino_classes → c ≠ Square).
  { intros c Hc ->. unfold tetromino_classes in Hc.
    repeat (apply elem_of_cons in Hc as [Hc' | Hc]; [discriminate|]).
    by apply elem_of_nil in Hc. }
  pose proof (state_inv_run inputs) as Hinv.
  split; [|split].
  - by destruct (run inputs).
  - intros c Hc. destruct (run inputs) as [l|l p|l|e]; simpl in Hc; try done.
    injection Hc as <-. destruct Hinv as (_ & _ & (_ & Hcls & _)). auto.
  - intros r. destruct (random_choice_classes r) as (c & Hc & Hin). eauto.
Qed.

Lemma Square_is_never_spawned_witness :
  IShaped ∈ tetromino_classes ∧ IShaped ≠ Square.
Proof.
  apply (proj1 (proj2 (Square_is_never_spawned [draw 4])) IShaped).
  reflexivity.
Defined.

(** ** Game over *)

(** C6. The flag [game_over] is assigned in one place, right after the
    merge of a piece found done at the end of a pass, and it is set exactly
    when the start position is then occupied; a pass that does not merge
    leaves flag and grid alone.  Hence in every reachable state the flag
    tells whether the start position is occupied, and once it is set the
    loop test makes [main] return: no exception is involved. *)
Theorem game_over_iff_start_occupied :
  (∀ l p, game_over l = false →
     grid (settle l p) = Grid.update_blocks (Tetromino.blocks p) (grid l) ∧
     (game_over (settle l p) = true ↔
      START_POSITION ∈ Grid.positions (grid (settle l p)))) ∧
  (∀ evs l p,
     match frame evs l p with
     | AtSpawn l' =>
         ∃ p', Tetromino.done p' = true ∧
               l' = settle (mkLoop (grid l) (counter l') (game_over l)) p'
     | Falling l' p' =>
         Tetromino.done p' = false ∧ grid l' = grid l ∧
         game_over l' = game_over l
     | Returned l' => l' = l
     | Crashed _ => True
     end) ∧
  (∀ inputs, ∃ l, loop_of (run inputs) = Some l ∧
     (game_over l = true ↔ START_POSITION ∈ Grid.positions (grid l))) ∧
  (∀ r l, game_over l = true → spawn r l = Returned l).
Proof.
  split; [|split; [|split]].
  - intros l p Hfalse. split; [done|]. unfold settle. simpl.
    case_bool_decide; [done|]. by rewrite Hfalse.
  - intros evs l p. unfold frame.
    destruct (on_events _ evs p) as [[p1|]|e]; [|done|done].
    case_bool_decide; simpl.
    + destruct (Tetromino.done (Tetromino.step_down _ p1)) eqn:Hdone; [|done].
      eexists. split; [exact Hdone|]. done.
    + destruct (Tetromino.done p1) eqn:Hdone; [|done].
      eexists. split; [exact Hdone|]. done.
  - intros inputs. pose proof (state_inv_run inputs) as Hinv.
    destruct (run inputs) as [l|l p|l|e]; simpl in *; [| | |done].
    + exists l. by destruct Hinv.
    + exists l. by destruct Hinv as [[_ ?] _].
    + exists l. by destruct Hinv.
  - intros r l Hover. unfold spawn. by rewrite Hover.
Qed.

Lemma game_over_iff_start_occupied_witness :
  spawn 0 tower_loop = Returned tower_loop ∧
  (game_over (settle (mkLoop (Grid.__init__ 300 600) 1 false) I_settled) = true ↔
   START_POSITION
   ∈ Grid.positions
       (grid (settle (mkLoop (Grid.__init__ 300 600) 1 false) I_settled))).
Proof.
  destruct game_over_iff_start_occupied as (Hsettle & _ & _ & Hret).
  split.
  - apply Hret. vm_compute. reflexivity.
  - apply Hsettle. reflexivity.
Defined.

(** ** Merging a piece into the grid *)

Lemma foldl_add_positions (bs : list SingleBlock.t) (s : gset (Z * Z)) :
  foldl (λ s b, Grid.add (SingleBlock.coords b) s) s bs
  = s ∪ list_to_set (map SingleBlock.coords bs).
Proof.
  revert s. induction bs as [|b bs IH]; intros s; simpl.
  - by rewrite (right_id_L ∅ (∪)).
  - rewrite IH. unfold Grid.add.
    by rewrite (comm_L (∪) {[SingleBlock.coords b]} s), (assoc_L (∪)).
Qed.

(** C5 fails when the piece lies on a locked block, which a rotation
    allows: the merge of the second piece adds four blocks but only three
    cells, and cell (17, 4) then holds two locked blocks. *)
Lemma merge_of_overlapping_piece :
  let turned := [cyan 17 4; cyan 17 3; cyan 17 2; cyan 17 1] in
  grid_of (run overlap_trace)
  = Grid.update_blocks turned (grid_of (run first_drop)) ∧
  size (Grid.positions (grid_of (run first_drop))) = 4%nat ∧
  size (Grid.positions (grid_of (run overlap_trace))) = 7%nat ∧
  ¬ NoDup (map SingleBlock.coords (Grid.blocks (grid_of (run overlap_trace)))).
Proof.
  intros turned. split; [|split; [|split]].
  - vm_compute. reflexivity.
  - vm_compute. reflexivity.
  - vm_compute. reflexivity.
  - intros Hnd. apply (bool_decide_pack _) in Hnd. vm_compute in Hnd.
    exact Hnd.
Qed.

(** C5, amended. The merge appends the blocks to the locked list and adds
    their cells to the occupied set.  When these cells are pairwise distinct
    and none is occupied yet, the set grows by the number of blocks (four
    for a piece) and the agreement of list and set is kept. *)
Theorem merge_of_disjoint_piece (bs : list SingleBlock.t) (g : Grid.t) :
  Grid.blocks (Grid.update_blocks bs g) = Grid.blocks g ++ bs ∧
  (∀ c, c ∈ Grid.positions (Grid.update_blocks bs g) ↔
        c ∈ Grid.positions g ∨ c ∈ map SingleBlock.coords bs) ∧
  (NoDup (map SingleBlock.coords bs) →
   (∀ b, b ∈ bs → SingleBlock.coords b ∉ Grid.positions g) →
   size (Grid.positions (Grid.update_blocks bs g))
   = (size (Grid.positions g) + length bs)%nat ∧
   (consistent g → consistent (Grid.update_blocks bs g))).
Proof.
  assert (Hpos : ∀ c, c ∈ Grid.positions (Grid.update_blocks bs g) ↔
                      c ∈ Grid.positions g ∨ c ∈ map SingleBlock.coords bs).
  { intros c. simpl. rewrite foldl_add_positions, elem_of_union.
    by rewrite elem_of_list_to_set. }
  split; [done|]. split; [done|].
  intros Hnd Hfree. split.
  - simpl. rewrite foldl_add_positions, size_union.
    + rewrite size_list_to_set by done. by rewrite length_map.
    + intros c Hc Hc'. apply elem_of_list_to_set in Hc'.
      apply list_elem_of_In, in_map_iff in Hc' as (b & <- & Hb).
      apply list_elem_of_In in Hb. by apply (Hfree b).
  - intros [Hnd0 Hagree]. split.
    + simpl. rewrite map_app. apply NoDup_app. split; [done|]. split; [|done].
      intros c Hc Hc'. apply Hagree in Hc.
      apply list_elem_of_In, in_map_iff in Hc' as (b & <- & Hb).
      apply list_elem_of_In in Hb. by apply (Hfree b).
    + intros c. rewrite Hpos. simpl. rewrite map_app, elem_of_app.
      by rewrite Hagree.
Qed.

Lemma merge_of_disjoint_piece_witness :
  size (Grid.positions
          (Grid.update_blocks (Tetromino.blocks I_settled) (Grid.__init__ 300 600)))
  = 4%nat.
Proof.
  destruct (merge_of_disjoint_piece (Tetromino.blocks I_settled)
              (Grid.__init__ 300 600)) as (_ & _ & Hsize).
  destruct Hsize as [Hsize _].
  - apply (bool_decide_unpack _). vm_compute. reflexivity.
  - intros b _ Hocc. by apply elem_of_empty in Hocc.
  - exact Hsize.
Defined.

(** * Further properties of the piece *)

(** ** Rotation of a piece without blocks *)

(** The only way for a rotation, or for the boundary correction, to raise is
    the [min] of an empty sequence: a piece without blocks raises
    [ValueError], every other piece returns. *)
Theorem rotation_raises_only_without_blocks (s : Tetromino.t) :
  (Tetromino.blocks s = [] →
   Tetromino._check_boundaries s = Raise ValueError ∧
   Tetromino.rotate_clockwise s = Raise ValueError ∧
   Tetromino.rotate_anticlockwise s = Raise ValueError) ∧
  (Tetromino.blocks s ≠ [] →
   (∃ s', Tetromino._check_boundaries s = Ok s') ∧
   (∃ s', Tetromino.rotate_clockwise s = Ok s') ∧
   (∃ s', Tetromino.rotate_anticlockwise s = Ok s')).
Proof.
  split.
  - intros Hnil.
    unfold Tetromino.rotate_clockwise, Tetromino.rotate_anticlockwise,
      Tetromino._check_boundaries. simpl. by rewrite Hnil.
  - intros Hne. split; [|split].
    + by apply check_boundaries_total.
    + by apply rotate_clockwise_total.
    + by apply rotate_anticlockwise_total.
Qed.

Lemma rotation_raises_only_without_blocks_witness :
  Tetromino.rotate_clockwise (Tetromino.set_blocks [] I_spawned)
  = Raise ValueError ∧
  ∃ s', Tetromino.rotate_clockwise I_spawned = Ok s'.
Proof.
  split.
  - apply (proj1 (rotation_raises_only_without_blocks
                    (Tetromino.set_blocks [] I_spawned))). reflexivity.
  - apply (proj2 (rotation_raises_only_without_blocks I_spawned)). done.
Defined.

(** ** Number and colour of the blocks *)

Lemma check_boundaries_colours (s s' : Tetromino.t) :
  Tetromino._check_boundaries s = Ok s' →
  map SingleBlock.color (Tetromino.blocks s')
  = map SingleBlock.color (Tetromino.blocks s).
Proof.
  unfold Tetromino._check_boundaries.
  destruct (py_min _) as [mn|]; simpl; [|done].
  case_bool_decide.
  { intros [= <-]. simpl. by rewrite map_map. }
  destruct (py_max (map SingleBlock.j _)) as [mx|]; simpl; [|done].
  case_bool_decide.
  { intros [= <-]. simpl. by rewrite map_map. }
  destruct (py_max (map SingleBlock.i _)) as [mxi|]; simpl; [|done].
  case_bool_decide; intros [= <-]; simpl; by rewrite ?map_map.
Qed.

Lemma step_colours (pos : gset (Z * Z)) (s : Tetromino.t) (m : Move) :
  map SingleBlock.color (Tetromino.blocks (do_move pos s m))
  = map SingleBlock.color (Tetromino.blocks s) ∧
  Tetromino.cls (do_move pos s m) = Tetromino.cls s.
Proof.
  destruct m; simpl.
  - destruct (step_down_cases pos s) as [-> | [-> _]]; [done|].
    simpl. by rewrite map_map.
  - destruct (step_left_cases pos s) as [-> | [-> _]]; [done|].
    simpl. by rewrite map_map.
  - destruct (step_right_cases pos s) as [-> | [-> _]]; [done|].
    simpl. by rewrite map_map.
Qed.

(** No operation adds, drops or recolours a block: after any step, and
    after any rotation of a piece that has blocks, the list of block colours
    (hence the number of blocks) and the class are what they were. *)
Theorem moves_keep_count_and_colours (pos : gset (Z * Z)) (s : Tetromino.t) :
  (∀ m, map SingleBlock.color (Tetromino.blocks (do_move pos s m))
        = map SingleBlock.color (Tetromino.blocks s) ∧
        length (Tetromino.blocks (do_move pos s m))
        = length (Tetromino.blocks s)) ∧
  (Tetromino.blocks s ≠ [] →
   (∃ s', Tetromino.rotate_clockwise s = Ok s' ∧
          map SingleBlock.color (Tetromino.blocks s')
          = map SingleBlock.color (Tetromino.blocks s) ∧
          length (Tetromino.blocks s') = length (Tetromino.blocks s)) ∧
   (∃ s', Tetromino.rotate_anticlockwise s = Ok s' ∧
          map SingleBlock.color (Tetromino.blocks s')
          = map SingleBlock.color (Tetromino.blocks s) ∧
          length (Tetromino.blocks s') = length (Tetromino.blocks s))).
Proof.
  split.
  - intros m. destruct (step_colours pos s m) as [Hcol _]. split; [done|].
    apply (f_equal length) in Hcol. by rewrite !length_map in Hcol.
  - intros Hne. split.
    + destruct (rotate_clockwise_total s Hne) as [s' Hs']. exists s'.
      split; [done|].
      destruct (rotate_clockwise_keeps _ _ Hs') as (_ & _ & _ & _ & Hlen).
      split; [|done].
      apply check_boundaries_colours in Hs'. simpl in Hs'.
      by rewrite map_map in Hs'.
    + destruct (rotate_anticlockwise_total s Hne) as [s' Hs']. exists s'.
      split; [done|].
      destruct (rotate_anticlockwise_keeps _ _ Hs') as (_ & _ & _ & _ & Hlen).
      split; [|done].
      apply check_boundaries_colours in Hs'. simpl in Hs'.
      by rewrite map_map in Hs'.
Qed.

Lemma moves_keep_count_and_colours_witness :
  ∃ s', Tetromino.rotate_clockwise I_on_floor = Ok s' ∧
        map SingleBlock.color (Tetromino.blocks s') = [CYAN; CYAN; CYAN; CYAN] ∧
        length (Tetromino.blocks s') = 4%nat.
Proof.
  apply (proj2 (moves_keep_count_and_colours ∅ I_on_floor)). done.
Defined.

(** ** Rotations undo each other *)

Lemma turn_anticlockwise_clockwise (s s' : Tetromino.t) (b : SingleBlock.t) :
  Tetromino.i s' = Tetromino.i s → Tetromino.j s' = Tetromino.j s →
  Tetromino.turn_anticlockwise s' (Tetromino.turn_clockwise s b) = b.
Proof.
  intros Hi Hj. destruct b as [bi bj c].
  unfold Tetromino.turn_anticlockwise, Tetromino.turn_clockwise,
    SingleBlock.set_coords. simpl. rewrite Hi, Hj. f_equal; lia.
Qed.

Lemma turn_clockwise_anticlockwise (s s' : Tetromino.t) (b : SingleBlock.t) :
  Tetromino.i s' = Tetromino.i s → Tetromino.j s' = Tetromino.j s →
  Tetromino.turn_clockwise s' (Tetromino.turn_anticlockwise s b) = b.
Proof.
  intros Hi Hj. destruct b as [bi bj c].
  unfold Tetromino.turn_anticlockwise, Tetromino.turn_clockwise,
    SingleBlock.set_coords. simpl. rewrite Hi, Hj. f_equal; lia.
Qed.

Lemma map_id_on {A} (f : A → A) (l : list A) : (∀ x, f x = x) → map f l = l.
Proof. intros Hf. rewrite <- (map_id l) at 2. by apply map_ext. Qed.

Lemma no_correction_nonempty_check (s : Tetromino.t) :
  Tetromino.blocks s ≠ [] → no_correction (Tetromino.blocks s) →
  Tetromino._check_boundaries s = Ok s.
Proof. intros Hne Hin. by apply check_boundaries_inside. Qed.

(** A clockwise turn followed by an anticlockwise one (and the other way
    round) gives the piece back, whenever neither the piece nor the turned
    piece needs a boundary correction. *)
Theorem opposite_rotations_cancel (s : Tetromino.t) :
  Tetromino.blocks s ≠ [] → no_correction (Tetromino.blocks s) →
  (no_correction (map (Tetromino.turn_clockwise s) (Tetromino.blocks s)) →
   ∃ s', Tetromino.rotate_clockwise s = Ok s' ∧
         Tetromino.rotate_anticlockwise s' = Ok s) ∧
  (no_correction (map (Tetromino.turn_anticlockwise s) (Tetromino.blocks s)) →
   ∃ s', Tetromino.rotate_anticlockwise s = Ok s' ∧
         Tetromino.rotate_clockwise s' = Ok s).
Proof.
  intros Hne Hin.
  assert (Hback : ∀ bs, Tetromino.set_blocks (Tetromino.blocks s)
                          (Tetromino.set_blocks bs s) = s) by (by destruct s).
  split; intros Hturned.
  - eexists. split.
    + unfold Tetromino.rotate_clockwise. apply no_correction_nonempty_check;
        [|done]. simpl. by destruct (Tetromino.blocks s).
    + unfold Tetromino.rotate_anticlockwise. simpl. rewrite map_map.
      rewrite (map_id_on _ _ (λ b, turn_anticlockwise_clockwise s _ b
                                     eq_refl eq_refl)).
      rewrite Hback. by apply no_correction_nonempty_check.
  - eexists. split.
    + unfold Tetromino.rotate_anticlockwise. apply no_correction_nonempty_check;
        [|done]. simpl. by destruct (Tetromino.blocks s).
    + unfold Tetromino.rotate_clockwise. simpl. rewrite map_map.
      rewrite (map_id_on _ _ (λ b, turn_clockwise_anticlockwise s _ b
                                     eq_refl eq_refl)).
      rewrite Hback. by apply no_correction_nonempty_check.
Qed.

Lemma opposite_rotations_cancel_witness :
  ∃ s', Tetromino.rotate_clockwise I_on_floor = Ok s' ∧
        Tetromino.rotate_anticlockwise s' = Ok I_on_floor.
Proof.
  assert (Hin : no_correction (Tetromino.blocks I_on_floor)).
  { intros b Hb. simpl in Hb. unfold GRID_WIDTH, GRID_HEIGHT.
    each_block Hb; simpl; lia. }
  apply (proj1 (opposite_rotations_cancel I_on_floor ltac:(done) Hin)).
  intros b Hb. simpl in Hb. unfold GRID_WIDTH, GRID_HEIGHT.
  each_block Hb; simpl; lia.
Defined.

(** ** Steps as translations *)

(** A step either leaves blocks and reference where they are, or moves all
    of them by the step's displacement onto cells that are inside the walls,
    above the floor and not occupied. *)
Lemma do_move_cases (pos : gset (Z * Z)) (s : Tetromino.t) (m : Move) :
  let moved := map (displaced (delta m)) (Tetromino.blocks s) in
  (Tetromino.blocks (do_move pos s m) = Tetromino.blocks s ∧
   Tetromino.i (do_move pos s m) = Tetromino.i s ∧
   Tetromino.j (do_move pos s m) = Tetromino.j s) ∨
  (do_move pos s m
   = Tetromino.mk (Tetromino.cls s) (Tetromino.i s + (delta m).1)
       (Tetromino.j s + (delta m).2) (Tetromino.initial_coords s) moved
       (Tetromino.done s) ∧
   free pos moved).
Proof.
  intros moved.
  assert (Hfree : ∀ f, (∀ b, f b = displaced (delta m) b) →
            any (λ b, bool_decide (SingleBlock.coords b ∈ pos))
                (map f (Tetromino.blocks s)) = false →
            map f (Tetromino.blocks s) = moved ∧ free pos moved).
  { intros f Hf Hocc. rewrite (map_ext _ _ Hf) in Hocc |- *.
    split; [done|]. intros b Hb.
    pose proof (proj1 (any_false _ _) Hocc b Hb) as Hb'.
    by apply bool_decide_eq_false in Hb'. }
  destruct m; simpl.
  - unfold Tetromino.step_down.
    destruct (any _ _) eqn:Hfloor; [by left|].
    destruct (any _ _) eqn:Hocc in |- *; [by left|].
    right. apply Hfree in Hocc as [-> ?].
    + split; [|done]. f_equal; lia.
    + intros b. unfold SingleBlock.step_down, displaced. simpl. f_equal; lia.
  - unfold Tetromino.step_left.
    destruct (any _ _) eqn:Hwall; [by left|].
    destruct (any _ _) eqn:Hocc in |- *; [by left|].
    right. apply Hfree in Hocc as [-> ?].
    + split; [|done]. f_equal; lia.
    + intros b. unfold SingleBlock.step_left, displaced. simpl. f_equal; lia.
  - unfold Tetromino.step_right.
    destruct (any _ _) eqn:Hwall; [by left|].
    destruct (any _ _) eqn:Hocc in |- *; [by left|].
    right. apply Hfree in Hocc as [-> ?].
    + split; [|done]. f_equal; lia.
    + intros b. unfold SingleBlock.step_right, displaced. simpl. f_equal; lia.
Qed.

(** Steps never take a piece onto a locked block: a piece that lies on free
    cells still does after any sequence of steps.  (Rotations give no such
    guarantee.) *)
Theorem steps_stay_on_free_cells
    (pos : gset (Z * Z)) (s : Tetromino.t) (ms : list Move) :
  free pos (Tetromino.blocks s) →
  free pos (Tetromino.blocks (foldl (do_move pos) s ms)).
Proof.
  revert s. induction ms as [|m ms IH]; intros s Hfree; simpl; [done|].
  apply IH. destruct (do_move_cases pos s m) as [(-> & _ & _) | [-> ?]]; done.
Qed.

Lemma steps_stay_on_free_cells_witness :
  free {[ (19, 3) ]}
    (Tetromino.blocks
       (foldl (do_move {[ (19, 3) ]}) I_on_floor [MoveLeft; MoveDown; MoveRight])).
Proof.
  apply steps_stay_on_free_cells.
  intros b Hb. simpl in Hb.
  each_block Hb; unfold SingleBlock.coords; simpl;
    intros Hin; apply elem_of_singleton in Hin; discriminate.
Defined.

Lemma offsets_do_move (pos : gset (Z * Z)) (s : Tetromino.t) (m : Move) :
  offsets (do_move pos s m) = offsets s.
Proof.
  unfold offsets.
  destruct (do_move_cases pos s m) as [(-> & -> & ->) | [-> _]]; [done|].
  simpl. rewrite map_map. apply map_ext. intros b. simpl. f_equal; lia.
Qed.

(** Steps keep the shape.  Seen from the reference coordinate the blocks of
    a constructed piece are the class layout centred on the pivot, and they
    still are after any sequence of steps: blocks and reference move
    together. *)
Theorem steps_keep_the_shape
    (c : TetrominoClass) (x y i0 j0 : Z) (pos : gset (Z * Z)) (ms : list Move) :
  class_center c = Some (x, y) →
  ∃ p, Tetromino.__init__ c i0 j0 = Ok p ∧
       offsets (foldl (do_move pos) p ms)
       = map (λ q : Z * Z, (q.1 - x, q.2 - y)) (class_initial_coords c).
Proof.
  intros Hc.
  destruct (init_with_center c x y i0 j0 Hc)
    as (p & Hp & _ & Hi & Hj & _ & _ & Hbs & _).
  exists p. split; [done|].
  assert (Hmoves : ∀ ms s, offsets (foldl (do_move pos) s ms) = offsets s).
  { clear. intros ms. induction ms as [|m ms IH]; intros s; simpl; [done|].
    by rewrite IH, offsets_do_move. }
  rewrite Hmoves. unfold offsets. rewrite Hbs, Hi, Hj, map_map.
  apply map_ext. intros q. simpl. f_equal; lia.
Qed.

Lemma steps_keep_the_shape_witness :
  ∃ p, Tetromino.__init__ TShaped 0 4 = Ok p ∧
       offsets (foldl (do_move ∅) p [MoveDown; MoveLeft; MoveDown; MoveRight])
       = [(-1, 0); (0, -1); (0, 0); (1, 0)].
Proof.
  apply (steps_keep_the_shape TShaped 1 1 0 4 ∅
           [MoveDown; MoveLeft; MoveDown; MoveRight]).
  reflexivity.
Defined.

(** A step left that moved the piece is undone by a step right, and the
    other way round, provided the piece started on free cells inside the
    walls (the step back tests the cells the piece came from). *)
Theorem opposite_steps_cancel (pos : gset (Z * Z)) (s : Tetromino.t) :
  free pos (Tetromino.blocks s) →
  (∀ b, b ∈ Tetromino.blocks s → 0 ≤ SingleBlock.j b ≤ GRID_WIDTH - 1) →
  (Tetromino.step_left pos s ≠ s →
   Tetromino.step_right pos (Tetromino.step_left pos s) = s) ∧
  (Tetromino.step_right pos s ≠ s →
   Tetromino.step_left pos (Tetromino.step_right pos s) = s).
Proof.
  intros Hfree Hcols. split; intros Hmoved.
  - destruct (step_left_cases pos s) as [Heq | [Heq _]]; [done|].
    rewrite Heq. unfold Tetromino.step_right. simpl. rewrite map_map.
    rewrite (map_id_on (λ b, SingleBlock.step_right (SingleBlock.step_left b)));
      [|intros [bi bj c]; unfold SingleBlock.step_right, SingleBlock.step_left;
        simpl; f_equal; lia].
    destruct (any _ _) eqn:Hwall.
    { apply (proj1 (any_spec _ _)) in Hwall as (b & Hb & Hcol).
      apply bool_decide_eq_true in Hcol. specialize (Hcols b Hb). lia. }
    destruct (any _ _) eqn:Hocc in |- *.
    { apply (proj1 (any_spec _ _)) in Hocc as (b & Hb & Hcell).
      apply bool_decide_eq_true in Hcell. by destruct (Hfree b Hb). }
    destruct s; simpl. f_equal. lia.
  - destruct (step_right_cases pos s) as [Heq | [Heq _]]; [done|].
    rewrite Heq. unfold Tetromino.step_left. simpl. rewrite map_map.
    rewrite (map_id_on (λ b, SingleBlock.step_left (SingleBlock.step_right b)));
      [|intros [bi bj c]; unfold SingleBlock.step_right, SingleBlock.step_left;
        simpl; f_equal; lia].
    destruct (any _ _) eqn:Hwall.
    { apply (proj1 (any_spec _ _)) in Hwall as (b & Hb & Hcol).
      apply bool_decide_eq_true in Hcol. specialize (Hcols b Hb). lia. }
    destruct (any _ _) eqn:Hocc in |- *.
    { apply (proj1 (any_spec _ _)) in Hocc as (b & Hb & Hcell).
      apply bool_decide_eq_true in Hcell. by destruct (Hfree b Hb). }
    destruct s; simpl. f_equal. lia.
Qed.

Lemma opposite_steps_cancel_witness :
  Tetromino.step_right ∅ (Tetromino.step_left ∅ I_on_floor) = I_on_floor.
Proof.
  apply (opposite_steps_cancel ∅ I_on_floor).
  - intros b _ Hin. by apply elem_of_empty in Hin.
  - intros b Hb. simpl in Hb. unfold GRID_WIDTH. each_block Hb; simpl; lia.
  - vm_compute. discriminate.
Defined.

(** ** Four turns *)

Lemma rotate_clockwise_clear (d : Z) (s : Tetromino.t) :
  clear_of_walls d s →
  let s' := Tetromino.set_blocks
              (map (Tetromino.turn_clockwise s) (Tetromino.blocks s)) s in
  Tetromino.rotate_clockwise s = Ok s' ∧ clear_of_walls d s'.
Proof.
  intros (Hne & Hnear & Hj & Hi) s'.
  assert (Hne' : Tetromino.blocks s' ≠ []).
  { simpl. by destruct (Tetromino.blocks s). }
  split.
  - apply check_boundaries_inside; [done|].
    intros b Hb. apply elem_of_map_block in Hb as (b0 & Hb0 & ->).
    specialize (Hnear b0 Hb0). simpl. lia.
  - split; [done|]. split; [|done].
    intros b Hb. apply elem_of_map_block in Hb as (b0 & Hb0 & ->).
    specialize (Hnear b0 Hb0). simpl. lia.
Qed.

Lemma rotate_anticlockwise_clear (d : Z) (s : Tetromino.t) :
  clear_of_walls d s →
  let s' := Tetromino.set_blocks
              (map (Tetromino.turn_anticlockwise s) (Tetromino.blocks s)) s in
  Tetromino.rotate_anticlockwise s = Ok s' ∧ clear_of_walls d s'.
Proof.
  intros (Hne & Hnear & Hj & Hi) s'.
  assert (Hne' : Tetromino.blocks s' ≠ []).
  { simpl. by destruct (Tetromino.blocks s). }
  split.
  - apply check_boundaries_inside; [done|].
    intros b Hb. apply elem_of_map_block in Hb as (b0 & Hb0 & ->).
    specialize (Hnear b0 Hb0). simpl. lia.
  - split; [done|]. split; [|done].
    intros b Hb. apply elem_of_map_block in Hb as (b0 & Hb0 & ->).
    specialize (Hnear b0 Hb0). simpl. lia.
Qed.

Lemma result_bind_Ok {A B} (a : A) (k : A → result B) : (Ok a ≫= k) = k a.
Proof. reflexivity. Qed.

(** Four quarter turns in the same direction give the piece back, when the
    piece is far enough from both walls and from the floor for no turn to
    need a correction (there is no ceiling to stay clear of). *)
Theorem four_turns_are_the_identity (d : Z) (s : Tetromino.t) :
  clear_of_walls d s →
  (s1 ← Tetromino.rotate_clockwise s;
   s2 ← Tetromino.rotate_clockwise s1;
   s3 ← Tetromino.rotate_clockwise s2;
   Tetromino.rotate_clockwise s3) = Ok s ∧
  (s1 ← Tetromino.rotate_anticlockwise s;
   s2 ← Tetromino.rotate_anticlockwise s1;
   s3 ← Tetromino.rotate_anticlockwise s2;
   Tetromino.rotate_anticlockwise s3) = Ok s.
Proof.
  intros Hs. split.
  - destruct (rotate_clockwise_clear d s Hs) as [E1 H1].
    destruct (rotate_clockwise_clear d _ H1) as [E2 H2].
    destruct (rotate_clockwise_clear d _ H2) as [E3 H3].
    destruct (rotate_clockwise_clear d _ H3) as [E4 _].
    rewrite E1, result_bind_Ok; cbv beta.
    rewrite E2, result_bind_Ok; cbv beta.
    rewrite E3, result_bind_Ok; cbv beta.
    rewrite E4. f_equal.
    destruct s as [c si sj ics bs dn]. unfold Tetromino.set_blocks. simpl.
    f_equal. rewrite !map_map.
    apply map_id_on. intros [bi bj col].
    unfold Tetromino.turn_clockwise, SingleBlock.set_coords. simpl.
    f_equal; lia.
  - destruct (rotate_anticlockwise_clear d s Hs) as [E1 H1].
    destruct (rotate_anticlockwise_clear d _ H1) as [E2 H2].
    destruct (rotate_anticlockwise_clear d _ H2) as [E3 H3].
    destruct (rotate_anticlockwise_clear d _ H3) as [E4 _].
    rewrite E1, result_bind_Ok; cbv beta.
    rewrite E2, result_bind_Ok; cbv beta.
    rewrite E3, result_bind_Ok; cbv beta.
    rewrite E4. f_equal.
    destruct s as [c si sj ics bs dn]. unfold Tetromino.set_blocks. simpl.
    f_equal. rewrite !map_map.
    apply map_id_on. intros [bi bj col].
    unfold Tetromino.turn_anticlockwise, SingleBlock.set_coords. simpl.
    f_equal; lia.
Qed.

Lemma four_turns_are_the_identity_witness :
  (s1 ← Tetromino.rotate_clockwise I_in_the_middle;
   s2 ← Tetromino.rotate_clockwise s1;
   s3 ← Tetromino.rotate_clockwise s2;
   Tetromino.rotate_clockwise s3) = Ok I_in_the_middle.
Proof.
  assert (Hclear : clear_of_walls 2 I_in_the_middle).
  { split; [done|]. split; [|unfold GRID_WIDTH, GRID_HEIGHT; simpl; lia].
    intros b Hb. simpl in Hb. each_block Hb; simpl; lia. }
  apply (proj1 (four_turns_are_the_identity 2 I_in_the_middle Hclear)).
Defined.

(** ** Falling ends *)

Lemma iterated_step_down (pos : gset (Z * Z)) (n : nat) (s : Tetromino.t) :
  Tetromino.done (Nat.iter n (Tetromino.step_down pos) s) = false →
  Tetromino.done s = false ∧
  Tetromino.blocks (Nat.iter n (Tetromino.step_down pos) s)
  = map (displaced (Z.of_nat n, 0)) (Tetromino.blocks s) ∧
  ((0 < n)%nat → ∀ b, b ∈ Tetromino.blocks s →
     SingleBlock.i b + Z.of_nat n < GRID_HEIGHT).
Proof.
  induction n as [|n IH]; simpl.
  - intros Hd. split; [done|]. split; [|lia].
    symmetry. apply map_id_on. intros [bi bj c]. unfold displaced. simpl.
    f_equal; lia.
  - set (y := Nat.iter n (Tetromino.step_down pos) s) in *.
    destruct (step_down_cases pos y) as [-> | [-> Hroom]]; [done|].
    simpl. intros Hd. destruct (IH Hd) as (Hs & Hbs & _).
    split; [done|]. rewrite Hbs, map_map. split.
    + apply map_ext. intros b. unfold SingleBlock.step_down, displaced. simpl.
      f_equal; lia.
    + intros _ b Hb.
      assert (Hb' : displaced (Z.of_nat n, 0) b ∈ Tetromino.blocks y).
      { rewrite Hbs. apply list_elem_of_In, in_map, list_elem_of_In, Hb. }
      specialize (Hroom _ Hb'). simpl in Hroom. lia.
Qed.

(** A piece cannot fall for ever: whatever is occupied, a piece with a
    block in row [r] is done after [GRID_HEIGHT - r] steps down at the
    latest (and after one step if it is already at or below the floor). *)
Theorem repeated_step_down_settles
    (pos : gset (Z * Z)) (s : Tetromino.t) (b : SingleBlock.t) (n : nat) :
  b ∈ Tetromino.blocks s → (0 < n)%nat →
  GRID_HEIGHT - SingleBlock.i b ≤ Z.of_nat n →
  Tetromino.done (Nat.iter n (Tetromino.step_down pos) s) = true.
Proof.
  intros Hb Hn Hfar.
  destruct (Tetromino.done (Nat.iter n (Tetromino.step_down pos) s)) eqn:Hd;
    [done|].
  destruct (iterated_step_down pos n s Hd) as (_ & _ & Hroom).
  specialize (Hroom Hn b Hb). lia.
Qed.

Lemma repeated_step_down_settles_witness :
  Tetromino.done (Nat.iter 21 (Tetromino.step_down ∅) I_spawned) = true.
Proof.
  apply (repeated_step_down_settles ∅ I_spawned (cyan (-1) 4) 21).
  - simpl. apply list_elem_of_here.
  - lia.
  - unfold GRID_HEIGHT. simpl. lia.
Defined.

(** * Further properties of the game loop *)

Lemma colours_transfer (p p' : Tetromino.t) :
  map SingleBlock.color (Tetromino.blocks p')
  = map SingleBlock.color (Tetromino.blocks p) →
  Tetromino.cls p' = Tetromino.cls p →
  (∀ b, b ∈ Tetromino.blocks p →
        SingleBlock.color b = class_color (Tetromino.cls p)) →
  ∀ b, b ∈ Tetromino.blocks p' →
       SingleBlock.color b = class_color (Tetromino.cls p').
Proof.
  intros Hcol Hcls Hp b Hb. rewrite Hcls.
  assert (Hin : SingleBlock.color b
                ∈ map SingleBlock.color (Tetromino.blocks p)).
  { rewrite <- Hcol. apply list_elem_of_In, in_map, list_elem_of_In, Hb. }
  apply list_elem_of_In, in_map_iff in Hin as (b0 & <- & Hb0).
  apply Hp. by apply list_elem_of_In.
Qed.

Lemma on_keydown_colours (pos : gset (Z * Z)) (key : Key) (p p' : Tetromino.t) :
  on_keydown pos key p = Ok p' →
  map SingleBlock.color (Tetromino.blocks p')
  = map SingleBlock.color (Tetromino.blocks p) ∧
  Tetromino.cls p' = Tetromino.cls p.
Proof.
  unfold on_keydown. destruct key; simpl.
  - destruct (Tetromino.rotate_clockwise p) as [p1|] eqn:Hrot; simpl; [|done].
    intros [= <-].
    destruct (rotate_clockwise_keeps _ _ Hrot) as (? & _).
    apply check_boundaries_colours in Hrot. simpl in Hrot.
    by rewrite map_map in Hrot.
  - destruct (Tetromino.rotate_anticlockwise p) as [p1|] eqn:Hrot; simpl; [|done].
    intros [= <-].
    destruct (rotate_anticlockwise_keeps _ _ Hrot) as (? & _).
    apply check_boundaries_colours in Hrot. simpl in Hrot.
    by rewrite map_map in Hrot.
  - intros [= <-]. apply (step_colours pos p MoveLeft).
  - intros [= <-]. apply (step_colours pos p MoveRight).
  - intros [= <-]. apply (step_colours pos p MoveDown).
  - by intros [= <-].
Qed.

Lemma on_events_colours (pos : gset (Z * Z)) (evs : list Event)
    (p p' : Tetromino.t) :
  on_events pos evs p = Ok (Some p') →
  map SingleBlock.color (Tetromino.blocks p')
  = map SingleBlock.color (Tetromino.blocks p) ∧
  Tetromino.cls p' = Tetromino.cls p.
Proof.
  revert p. induction evs as [|ev evs IH]; intros p; simpl.
  - by intros [= <-].
  - destruct ev as [|key|key]; [done| |by apply IH].
    destruct (on_keydown pos key p) as [p1|] eqn:Hkey; simpl; [|done].
    intros Hrest. destruct (IH _ Hrest) as [-> ->].
    by apply on_keydown_colours in Hkey.
Qed.

Lemma loop_inv2_settle (l : Loop) (p : Tetromino.t) :
  loop_inv2 l → 1 ≤ counter l → length (Tetromino.blocks p) = 4%nat →
  loop_inv2 (settle l p).
Proof.
  intros (Hc & Hpos & k & Hk) Hone Hlen. split; [simpl; lia|]. split.
  - intros c. simpl. rewrite foldl_add_positions, elem_of_union.
    rewrite elem_of_list_to_set, map_app, elem_of_app, Hpos. done.
  - exists (S k). simpl. rewrite length_app, Hk, Hlen. lia.
Qed.

Lemma state_inv2_frame (evs : list Event) (l : Loop) (p : Tetromino.t) :
  piece_inv p → loop_inv2 l → piece_inv2 p → state_inv2 (frame evs l p).
Proof.
  intros Hp (Hc & Hpos & Hk) (Hd & Hcol). unfold frame.
  destruct (piece_inv_on_events (Grid.positions (grid l)) evs p Hp)
    as [-> | (p1 & Hev & Hp1)].
  { done. }
  rewrite Hev. destruct (on_events_colours _ _ _ _ Hev) as [Hcol1 Hcls1].
  pose proof (colours_transfer p p1 Hcol1 Hcls1 Hcol) as Hp1col.
  case_bool_decide as H30; simpl.
  - set (p2 := Tetromino.step_down _ p1).
    assert (Hp2 : piece_inv p2) by (by apply piece_inv_step_down).
    destruct (step_colours (Grid.positions (grid l)) p1 MoveDown)
      as [Hcol2 Hcls2]. simpl in Hcol2, Hcls2. fold p2 in Hcol2, Hcls2.
    destruct (Tetromino.done p2) eqn:Hd2.
    + apply loop_inv2_settle; [|simpl; lia|by destruct Hp2].
      split; [simpl; lia|done].
    + split; [split; [simpl; lia|done]|].
      split; [done|]. by apply (colours_transfer p1 p2).
  - destruct (Tetromino.done p1) eqn:Hd1.
    + apply loop_inv2_settle; [|simpl; lia|by destruct Hp1].
      split; [simpl; lia|done].
    + split; [split; [simpl; lia|done]|]. done.
Qed.

Lemma state_inv2_step (s : State) (inp : Input) :
  state_inv s → state_inv2 s → state_inv2 (step s inp).
Proof.
  destruct s as [l|l p|l|e]; simpl; try done.
  - intros _ Hl. unfold spawn. destruct (game_over l); [done|].
    destruct (random_choice_classes (rnd inp)) as (c & -> & Hc).
    destruct (spawned_piece_inv c Hc) as (p & Hp & _ & Hcls & Hd & _).
    destruct (construction_total_for_six c START_POSITION.1 START_POSITION.2 Hc)
      as (p' & Hp' & _ & Hcol).
    rewrite Hp in Hp' |- *. injection Hp' as <-.
    split; [done|]. split; [done|]. by rewrite Hcls.
  - intros (_ & _ & Hp) [Hl Hp2]. by apply state_inv2_frame.
Qed.

Lemma state_inv2_run (inputs : list Input) : state_inv2 (run inputs).
Proof.
  unfold run.
  assert (Hboth : state_inv (foldl step initial inputs) ∧
                  state_inv2 (foldl step initial inputs)).
  { induction inputs as [|inp inputs IH] using rev_ind.
    - split; [apply (state_inv_run [])|]. simpl. unfold loop_inv2. simpl.
      split; [lia|]. split; [|by exists 0%nat].
      intros c. simpl. split; intros Hin.
      + by apply elem_of_empty in Hin.
      + by apply elem_of_nil in Hin.
    - rewrite foldl_app. simpl. destruct IH as [H1 H2].
      split; [by apply state_inv_step | by apply state_inv2_step]. }
  apply Hboth.
Qed.

(** In every reachable state the occupied set is exactly the set of cells
    of the locked blocks (a cell may hold several of them, but none is
    missing and none is extra). *)
Theorem positions_are_the_locked_cells (inputs : list Input) (c : Z * Z) :
  c ∈ Grid.positions (grid_of (run inputs)) ↔
  c ∈ map SingleBlock.coords (locked_blocks (run inputs)).
Proof.
  pose proof (state_inv2_run inputs) as Hinv.
  destruct (run inputs) as [l|l p|l|e]; simpl in *.
  - by destruct Hinv as (_ & ? & _).
  - by destruct Hinv as ((_ & ? & _) & _).
  - by destruct Hinv as (_ & ? & _).
  - split; intros Hin.
    + by apply elem_of_empty in Hin.
    + by apply elem_of_nil in Hin.
Qed.

(** In every reachable state the live piece is not done, it has exactly
    four blocks, all of the colour of its class, and the locked blocks come
    in fours. *)
Theorem four_blocks_per_piece (inputs : list Input) :
  (∃ k : nat, length (locked_blocks (run inputs)) = (4 * k)%nat) ∧
  (∀ l p, run inputs = Falling l p →
     Tetromino.done p = false ∧
     length (Tetromino.blocks p) = 4%nat ∧
     ∀ b, b ∈ Tetromino.blocks p →
          SingleBlock.color b = class_color (Tetromino.cls p)).
Proof.
  pose proof (state_inv2_run inputs) as Hinv2.
  pose proof (state_inv_run inputs) as Hinv.
  destruct (run inputs) as [l|l p|l|e]; simpl in *.
  - split; [by destruct Hinv2 as (_ & _ & ?) | done].
  - split; [by destruct Hinv2 as ((_ & _ & ?) & _)|].
    intros ? ? [= <- <-].
    destruct Hinv2 as (_ & Hd & Hcol), Hinv as (_ & _ & (Hlen & _)). done.
  - split; [by destruct Hinv2 as (_ & _ & ?) | done].
  - done.
Qed.

Lemma four_blocks_per_piece_witness :
  Tetromino.done I_spawned = false ∧
  length (Tetromino.blocks I_spawned) = 4%nat ∧
  ∀ b, b ∈ Tetromino.blocks I_spawned →
       SingleBlock.color b = class_color (Tetromino.cls I_spawned).
Proof.
  apply (proj2 (four_blocks_per_piece [draw 4])
           (mkLoop (Grid.__init__ 300 600) 0 false) I_spawned).
  reflexivity.
Defined.

(** ** The grid only grows *)

Lemma step_grows (s : State) (inp : Input) :
  state_inv s →
  ∃ added, locked_blocks (step s inp) = locked_blocks s ++ added ∧
           Grid.positions (grid_of s) ⊆ Grid.positions (grid_of (step s inp)).
Proof.
  intros Hinv. pose proof (state_inv_step s inp Hinv) as Hnext.
  destruct s as [l|l p|l|e]; simpl in *; [| | |done].
  - unfold spawn in *. exists [].
    destruct (game_over l); [by rewrite app_nil_r|].
    destruct (random_choice _ _); [|done].
    destruct (Tetromino.__init__ _ _ _); [|done].
    by rewrite app_nil_r.
  - unfold frame in *.
    destruct (on_events _ _ p) as [[p1|]|e]; [| |done].
    + destruct (if bool_decide (counter l = 30) then _ else _) as [p2 c].
      destruct (Tetromino.done p2).
      * exists (Tetromino.blocks p2). split; [done|]. simpl.
        rewrite foldl_add_positions. apply union_subseteq_l.
      * exists []. by rewrite app_nil_r.
    + exists []. by rewrite app_nil_r.
  - exists []. by rewrite app_nil_r.
Qed.

(** Nothing is ever removed from the grid: whatever the further inputs, the
    locked blocks of a reachable state stay where they are in the list, new
    ones are appended, and every occupied cell stays occupied. *)
Theorem locked_blocks_only_grow (inputs more : list Input) :
  (∃ added, locked_blocks (run (inputs ++ more))
            = locked_blocks (run inputs) ++ added) ∧
  Grid.positions (grid_of (run inputs))
  ⊆ Grid.positions (grid_of (run (inputs ++ more))).
Proof.
  induction more as [|inp more IH] using rev_ind.
  - rewrite app_nil_r. split; [exists []; by rewrite app_nil_r | done].
  - destruct IH as [[added Hadded] Hsub].
    rewrite (assoc_L (++)). unfold run in *. rewrite foldl_app. simpl.
    destruct (step_grows (foldl step initial (inputs ++ more)) inp)
      as (added' & Hadded' & Hsub').
    { apply (state_inv_run (inputs ++ more)). }
    split.
    + exists (added ++ added'). by rewrite Hadded', Hadded, (assoc_L (++)).
    + by etrans.
Qed.

(** ** Gravity *)

Lemma idle_passes (n : nat) (r : nat) (l : Loop) (p : Tetromino.t) :
  Tetromino.done p = false → counter l + Z.of_nat n ≤ 30 →
  foldl step (Falling l p) (replicate n (draw r))
  = Falling (mkLoop (grid l) (counter l + Z.of_nat n) (game_over l)) p.
Proof.
  revert l. induction n as [|n IH]; intros l Hd Hc; simpl.
  - destruct l as [g c go]. simpl. do 2 f_equal. lia.
  - unfold frame. simpl. rewrite bool_decide_eq_false_2 by lia. rewrite Hd.
    rewrite IH; [|done|simpl; lia]. simpl. do 2 f_equal. lia.
Qed.

(** The forced step down comes when the pass counter reaches 30, and the
    counter then restarts at 1.  From a reachable state with counter [c] and
    no key pressed, the piece stays put for [30 - c] passes, and pass number
    [31 - c] steps it down: it falls on, or it is merged.  So gravity acts
    every 30 passes, except for the first time in a game, which takes 31. *)
Theorem gravity_acts_when_the_counter_reaches_30
    (inputs : list Input) (l : Loop) (p : Tetromino.t) (r : nat) :
  run inputs = Falling l p →
  0 ≤ counter l ≤ 30 ∧
  (∀ n : nat, Z.of_nat n ≤ 30 - counter l →
     run (inputs ++ replicate n (draw r))
     = Falling (mkLoop (grid l) (counter l + Z.of_nat n) (game_over l)) p) ∧
  run (inputs ++ replicate (Z.to_nat (31 - counter l)) (draw r))
  = (let p' := Tetromino.step_down (Grid.positions (grid l)) p in
     let l' := mkLoop (grid l) 1 (game_over l) in
     if Tetromino.done p' then AtSpawn (settle l' p') else Falling l' p').
Proof.
  intros Hrun.
  pose proof (state_inv2_run inputs) as Hinv. rewrite Hrun in Hinv.
  destruct Hinv as ((Hc & _) & (Hd & _)).
  split; [done|]. split.
  - intros n Hn. unfold run in *. rewrite foldl_app, Hrun.
    apply idle_passes; [done | lia].
  - replace (Z.to_nat (31 - counter l)) with (Z.to_nat (30 - counter l) + 1)%nat
      by lia.
    rewrite replicate_add, (assoc_L (++)). unfold run in *.
    rewrite foldl_app, foldl_app, Hrun.
    rewrite idle_passes; [|done|lia]. simpl. unfold frame. simpl.
    rewrite bool_decide_eq_true_2 by lia. done.
Qed.

Lemma gravity_acts_when_the_counter_reaches_30_witness :
  run ([draw 4] ++ replicate (Z.to_nat (31 - 0)) (draw 0))
  = Falling (mkLoop (Grid.__init__ 300 600) 1 false)
            (Tetromino.step_down ∅ I_spawned).
Proof.
  refine (eq_trans
            (proj2 (proj2 (gravity_acts_when_the_counter_reaches_30 [draw 4]
               (mkLoop (Grid.__init__ 300 600) 0 false) I_spawned 0 _)))
            eq_refl).
  reflexivity.
Defined.

(** ** Quitting and unbound events *)

Lemma on_events_quit (pos : gset (Z * Z)) (before after : list Event)
    (p : Tetromino.t) :
  piece_inv p → on_events pos (before ++ QUIT :: after) p = Ok None.
Proof.
  revert p. induction before as [|ev before IH]; intros p Hp; simpl; [done|].
  destruct ev as [|key|key]; [done| |by apply IH].
  destruct (piece_inv_on_keydown pos key p Hp) as (p' & -> & Hp'). simpl.
  by apply IH.
Qed.

(** A [QUIT] event anywhere in a pass makes [main] return at once with the
    grid as it was before the pass: the moves already made in that pass are
    lost with the piece, the rest of the events is not read, nothing is
    merged, and no exception escapes. *)
Theorem quit_returns_with_the_grid_untouched
    (inputs : list Input) (l : Loop) (p : Tetromino.t) (r : nat)
    (before after : list Event) :
  run inputs = Falling l p →
  run (inputs ++ [mkInput r (before ++ QUIT :: after)]) = Returned l.
Proof.
  intros Hrun. pose proof (state_inv_run inputs) as Hinv.
  unfold run in *. rewrite foldl_app, Hrun. rewrite Hrun in Hinv.
  destruct Hinv as (_ & _ & Hp). simpl. unfold frame.
  by rewrite on_events_quit.
Qed.

Lemma quit_returns_with_the_grid_untouched_witness :
  run ([draw 4] ++ [mkInput 0 ([KEYDOWN K_LEFT; KEYDOWN K_x] ++
                               QUIT :: [KEYDOWN K_DOWN])])
  = Returned (mkLoop (Grid.__init__ 300 600) 0 false).
Proof.
  apply (quit_returns_with_the_grid_untouched [draw 4] _ I_spawned).
  reflexivity.
Defined.

Lemma on_events_keydown (pos : gset (Z * Z)) (key : Key) (evs : list Event)
    (p : Tetromino.t) :
  on_events pos (KEYDOWN key :: evs) p
  = (p' ← on_keydown pos key p; on_events pos evs p').
Proof. reflexivity. Qed.

(** Events other than [QUIT] and a press of one of the five bound keys
    change nothing: dropping them from the list of a pass gives the same
    result. *)
Theorem unbound_events_are_ignored
    (pos : gset (Z * Z)) (evs : list Event) (p : Tetromino.t) :
  on_events pos (filter (λ ev, bound ev = true) evs) p = on_events pos evs p.
Proof.
  revert p. induction evs as [|ev evs IH]; intros p; [done|].
  destruct ev as [|key|key].
  - by rewrite filter_cons_True.
  - assert (Hkey : key = K_SPACE ∨ bound (KEYDOWN key) = true)
      by (destruct key; auto).
    destruct Hkey as [-> | Hkey].
    + rewrite filter_cons_False by (simpl; done). simpl. apply IH.
    + rewrite filter_cons_True by done.
      rewrite !on_events_keydown.
      destruct (on_keydown pos key p); simpl; [apply IH | done].
  - rewrite filter_cons_False by (simpl; done). simpl. apply IH.
Qed.

(** ** A piece that cannot leave the start position *)

Lemma positions_update_blocks (bs : list SingleBlock.t) (g : Grid.t) (c : Z * Z) :
  c ∈ Grid.positions (Grid.update_blocks bs g) ↔
  c ∈ Grid.positions g ∨ c ∈ map SingleBlock.coords bs.
Proof.
  simpl. by rewrite foldl_add_positions, elem_of_union, elem_of_list_to_set.
Qed.

(** Every class that can be constructed puts one block on the reference
    coordinate and one right above it.  Hence a new piece whose first step
    down is refused is merged over the start position, and the game is
    over. *)
Theorem new_piece_covers_its_reference
    (c : TetrominoClass) (i0 j0 : Z) (p : Tetromino.t) :
  Tetromino.__init__ c i0 j0 = Ok p →
  SingleBlock.mk i0 j0 (class_color c) ∈ Tetromino.blocks p ∧
  SingleBlock.mk (i0 - 1) j0 (class_color c) ∈ Tetromino.blocks p ∧
  ((i0, j0) = START_POSITION →
   ∀ pos l, Tetromino.done (Tetromino.step_down pos p) = true →
            game_over (settle l (Tetromino.step_down pos p)) = true).
Proof.
  intros Hp.
  assert (Hd : Tetromino.done p = false).
  { destruct c; try (injection Hp as <-; done). discriminate. }
  assert (Href : SingleBlock.mk i0 j0 (class_color c) ∈ Tetromino.blocks p).
  { destruct c; try discriminate; injection Hp as <-; simpl;
      repeat (apply elem_of_cons; first [ left; f_equal; lia | right ]). }
  split; [done|]. split.
  - destruct c; try discriminate; injection Hp as <-; simpl;
      repeat (apply elem_of_cons; first [ left; f_equal; lia | right ]).
  - intros Hstart pos l Hdone. unfold settle. simpl.
    rewrite bool_decide_eq_true_2; [done|].
    destruct (step_down_cases pos p) as [Heq | [Heq _]].
    + rewrite Heq. simpl. rewrite foldl_add_positions.
      apply elem_of_union_r, elem_of_list_to_set. rewrite <- Hstart.
      apply list_elem_of_In, in_map_iff.
      exists (SingleBlock.mk i0 j0 (class_color c)).
      split; [done | by apply list_elem_of_In].
    + rewrite Heq in Hdone. simpl in Hdone. congruence.
Qed.

Lemma new_piece_covers_its_reference_witness :
  game_over
    (settle (mkLoop (Grid.__init__ 300 600) 1 false)
            (Tetromino.step_down {[ (3, 4) ]} I_spawned)) = true.
Proof.
  destruct (new_piece_covers_its_reference IShaped 0 4 I_spawned eq_refl)
    as (_ & _ & Hover).
  apply Hover; [reflexivity|]. vm_compute. reflexivity.
Defined.

(** ** Merging in several goes *)

(** Merging two lists of blocks one after the other is merging their
    concatenation, merging nothing changes nothing, and the occupied set
    does not depend on the order of the merges. *)
Theorem merges_compose (bs1 bs2 : list SingleBlock.t) (g : Grid.t) :
  Grid.update_blocks bs2 (Grid.update_blocks bs1 g)
  = Grid.update_blocks (bs1 ++ bs2) g ∧
  Grid.update_blocks [] g = g ∧
  Grid.positions (Grid.update_blocks bs2 (Grid.update_blocks bs1 g))
  = Grid.positions (Grid.update_blocks bs1 (Grid.update_blocks bs2 g)).
Proof.
  split; [|split].
  - unfold Grid.update_blocks. simpl. by rewrite foldl_app, (assoc_L (++)).
  - destruct g. unfold Grid.update_blocks. simpl. by rewrite app_nil_r.
  - simpl. rewrite !foldl_add_positions.
    rewrite <- !(assoc_L (∪)). f_equal. apply (comm_L (∪)).
Qed.

(** * Properties of the drawing code *)






